(** * Phishing detection service: scoring, history log and domain lookup

    A shallow embedding of [app.py].  Python values are modelled as follows.

    - [str] is [string]; the characters of a URL are taken to be bytes.
    - [float] is a binary64 number, given by its exact value in [Q]; the
      arithmetic of lines 113, 126, 131 and 134 rounds the exact result to
      the nearest binary64 number, ties to even.  [round(x, 1)] and the
      [.1f] format round the exact value to the nearest tenth, ties to
      even, as CPython does on the exact value of the float.
    - [int] (a domain age in days, a clock reading in seconds) is [Z].
    - The history file is a [FileState]: absent, present but not parseable
      as JSON, or holding a list of records.
    - An exception is a value of the result type ([Raised]) or, where the
      source has a handler, the handler's branch.

    [markupsafe.escape], [strftime], the classifier and the WHOIS client are
    external to the repository and are parameters of the model. *)

From Stdlib Require Import QArith Qabs Qpower Qfield Lqa.
From Stdlib Require Import Ascii DecimalString.
From stdpp Require Import base list strings.

Local Open Scope string_scope.
Local Open Scope list_scope.

(** ** Python string primitives *)

Module PyStr.

(** [skip] counts the characters of an already recognised separator that
    are still to be dropped; a separator at the head of [s] closes the
    current piece.  The scan is left to right and matches do not overlap,
    as in [str.split(sep)]. *)
Fixpoint split_from (sep : string) (skip : nat) (s : string) : list string :=
  match s with
  | EmptyString => [EmptyString]
  | String c rest =>
      match skip with
      | S k => split_from sep k rest
      | O =>
          if String.prefix sep s
          then EmptyString :: split_from sep (String.length sep - 1) rest
          else match split_from sep 0 rest with
               | piece :: more => String c piece :: more
               | [] => [String c EmptyString]
               end
      end
  end.

(** [s.split(sep)] for a non-empty [sep]. *)
Definition split (sep s : string) : list string := split_from sep 0 s.

(** [l[-1]] and [l[0]] on the result of a split, which is never empty. *)
Definition last_item (l : list string) : string := List.last l EmptyString.
Definition first_item (l : list string) : string := List.hd EmptyString l.

(** [str(n)] for an [int]. *)
Definition str_of_int (n : Z) : string := NilZero.string_of_int (Z.to_int n).

(** [bool(s)] for a [str]: the empty string is falsy. *)
Definition truthy (s : string) : bool :=
  match s with EmptyString => false | String _ _ => true end.

End PyStr.

(** ** Python number primitives *)

Module PyNum.

Local Open Scope Q_scope.

Definition Qltb (a b : Q) : bool := negb (Qle_bool b a).

(** [min(a, b)] and [max(a, b)] keep the first argument unless the second
    is strictly smaller, respectively strictly larger. *)
Definition py_min (a b : Q) : Q := if Qltb b a then b else a.
Definition py_max (a b : Q) : Q := if Qltb a b then b else a.

(** Nearest integer, ties to even. *)
Definition round_half_even (x : Q) : Z :=
  let n := Qnum x in
  let d := Zpos (Qden x) in
  let f := (n / d)%Z in
  match (2 * (n mod d) ?= d)%Z with
  | Lt => f
  | Gt => (f + 1)%Z
  | Eq => if Z.even f then f else (f + 1)%Z
  end.

(** The number of tenths nearest to [x]. *)
Definition tenths (x : Q) : Z := round_half_even (x * 10).

(** [round(x, 1)]. *)
Definition round1 (x : Q) : Q := tenths x # 10.

(** [f"{x:.1f}"]: sign, integer part, point, one digit. *)
Definition format_1f (x : Q) : string :=
  let k := Z.abs (tenths x) in
  ((if Qltb x 0 then "-" else "")
     ++ PyStr.str_of_int (k / 10) ++ "." ++ PyStr.str_of_int (k mod 10))%string.

End PyNum.

(** ** Python floats *)

(** A [float] is an IEEE 754 binary64 number, modelled by its exact value.
    The result of an arithmetic operation is the exact result rounded to the
    nearest binary64 number, ties to the even significand, with gradual
    underflow.  Infinities and NaN are left out: no quantity of the program
    comes near the largest binary64 number when the classifier returns a
    probability. *)
Module PyFloat.

Local Open Scope Q_scope.

(** The exponent [e] with [2 ^ e <= x < 2 ^ (e + 1)], for a positive [x]. *)
Definition ilog2 (x : Q) : Z :=
  let e0 := (Z.log2 (Qnum x) - Z.log2 (Zpos (Qden x)))%Z in
  if Qle_bool (2 ^ e0) x then e0 else (e0 - 1)%Z.

(** The exponent of the last place of the binary64 numbers around [x]: 53
    significant bits, and never below the smallest subnormal [2 ^ -1074]. *)
Definition quantum (x : Q) : Z := Z.max (ilog2 (Qabs x) - 52) (-1074).

(** The binary64 number nearest to [x]. *)
Definition fl (x : Q) : Q :=
  if Qeq_bool x 0 then 0
  else
    let q := quantum x in
    inject_Z (PyNum.round_half_even (x * 2 ^ (- q))) * 2 ^ q.

(** [x] is the value of a binary64 number. *)
Definition is_double (x : Q) : Prop := fl x == x.

(** [x + y], [x - y] and [x * y] on floats. *)
Definition fadd (x y : Q) : Q := fl (x + y).
Definition fsub (x y : Q) : Q := fl (x - y).
Definition fmul (x y : Q) : Q := fl (x * y).

(** [float(x)]: the identity on a float. *)
Definition to_float (x : Q) : Q := fl x.

End PyFloat.

(** ** Data model *)

(** One entry of [scan_history.json]: the dictionary built at lines 65-70. *)
Record ScanRecord := mkScanRecord {
  url : string;
  status : string;
  score : Q;
  time : string
}.

(** What [LOG_FILE] holds between two requests. *)
Inductive FileState :=
| Absent
| Corrupt
| Stored (logs : list ScanRecord).

(** Outcome of a call that may raise. *)
Inductive result (A : Type) :=
| Returned (a : A)
| Raised (message : string).
Arguments Returned {A} a.
Arguments Raised {A} message.

(** The [creation_date] attribute of a WHOIS entry: missing, one date or a
    list of dates (seconds on the clock of [datetime.now()]). *)
Inductive CreationDate :=
| NoCreationDate
| CreationAt (t : Z)
| CreationList (dates : list Z).

Inductive WhoisReply :=
| WhoisFailed
| WhoisEntry (creation_date : CreationDate).

(** Everything [analyze] reads besides the request and the history file. *)
Record World := mkWorld {
  whois_available : bool;
  whois : string -> WhoisReply;
  predict_bad : string -> result Q;
  now_lookup : Z;
  now_save : Z
}.

(** The JSON body of a POST to [/analyze]: the [url] key may be missing. *)
Record Request := mkRequest { json_url : option string }.

Inductive Response :=
| ErrorResponse (message : string)
| ScanResponse (st : string) (sc : Q) (reasons : list string) (age : string).

(** ** Domain age lookup (lines 28-42) *)

(** Line 33: the argument of [whois.whois]. *)
Definition domain_name (u : string) : string :=
  PyStr.first_item (PyStr.split "/" (PyStr.last_item (PyStr.split "//" u))).

Definition seconds_per_day : Z := 86400.

(** Every exception inside the [try] gives [None]: a failed query, and the
    [IndexError] of [creation_date[0]] on an empty list.  [.days] of a time
    difference is its number of whole days, rounded down. *)
Definition get_domain_age (w : World) (u : string) : option Z :=
  if negb (whois_available w) then None
  else
    match whois w (domain_name u) with
    | WhoisFailed => None
    | WhoisEntry NoCreationDate => None
    | WhoisEntry (CreationAt t) => Some ((now_lookup w - t) / seconds_per_day)%Z
    | WhoisEntry (CreationList []) => None
    | WhoisEntry (CreationList (t :: _)) => Some ((now_lookup w - t) / seconds_per_day)%Z
    end.

(** ** Scoring (lines 118-140) *)

Module Scoring.

Import PyNum PyFloat.
Local Open Scope Q_scope.

(** Lines 123-126; the subtraction of line 126 is on floats. *)
Definition ai_reason (ai_confidence : Q) : string :=
  if Qltb 50 ai_confidence
  then ("AI Model is " ++ format_1f ai_confidence
          ++ "% confident this matches phishing patterns")%string
  else ("AI Analysis indicates a " ++ format_1f (fsub 100 ai_confidence)
          ++ "% safety confidence")%string.

Definition brand_new_reason (age : Z) : string :=
  ("Security Alert: Domain is brand new (" ++ PyStr.str_of_int age ++ " days old)")%string.

Definition established_reason : string :=
  "Trust Factor: Established domain (over 3 years old)".

(** Lines 129-135 on the pair [(risk_score, reasons)]; [+= 15] and
    [-= 10] are on floats. *)
Definition adjust_for_age (age : option Z) (acc : Q * list string) : Q * list string :=
  match age with
  | None => acc
  | Some a =>
      if (a <? 30)%Z then (fadd (fst acc) 15, snd acc ++ [brand_new_reason a])
      else if (1000 <? a)%Z
           then (fsub (fst acc) 10, snd acc ++ [established_reason])
           else acc
  end.

(** Lines 120-135. *)
Definition risk (ai_confidence : Q) (age : option Z) : Q * list string :=
  adjust_for_age age (ai_confidence, [ai_reason ai_confidence]).

(** Line 138. *)
Definition final_score (risk_score : Q) : Q :=
  py_max 0 (py_min 100 (round1 risk_score)).

(** Line 140. *)
Definition status_of (final : Q) : string :=
  if Qle_bool 50 final then "danger" else "safe".

(** Line 148.  The test is [if age], the truth value of [age]: it is false
    for [None] and for the integer 0. *)
Definition age_display (age : option Z) : string :=
  match age with
  | None => "Unknown"
  | Some a => if (a =? 0)%Z then "Unknown" else (PyStr.str_of_int a ++ " days")%string
  end.

(** The domain ages the test plan of the scoring step enumerates. *)
Definition listed_ages : list (option Z) :=
  [None; Some 0; Some 29; Some 30; Some 500; Some 1000; Some 1001]%Z.

End Scoring.

(** ** History log and request handlers *)

(** The invariant of the data model: no two records share a [url]. *)
Definition unique_urls (logs : list ScanRecord) : Prop := NoDup (url <$> logs).

Section Service.

(** [str(escape(s))] of markupsafe and [strftime("%Y-%m-%d %H:%M:%S")]. *)
Variable escape : string -> string.
Variable strftime : Z -> string.

(** Lines 46-52: a missing file and a file that fails to parse both give
    the empty list. *)
Definition load_or_empty (fs : FileState) : list ScanRecord :=
  match fs with
  | Absent => []
  | Corrupt => []
  | Stored logs => logs
  end.

(** The record line 65 appends for a URL seen for the first time. *)
Definition fresh_record (u st : string) (sc : Q) (now : Z) : ScanRecord :=
  mkScanRecord (escape u) st sc (strftime now).

(** Lines 55-71 on the loaded list.  [existing_entry] is the first record
    whose [url] equals the escaped URL; the assignments of lines 59-61
    change that record where it sits in the list. *)
Definition upsert (logs : list ScanRecord) (u st : string) (sc : Q) (now : Z)
  : list ScanRecord :=
  let existing_entry := list_find (λ item, url item = escape u) logs in
  match existing_entry with
  | Some (i, item) =>
      <[i := mkScanRecord (url item) st sc (strftime now)]> logs
  | None =>
      logs ++ [fresh_record u st sc now]
  end.

(** Lines 44-75. *)
Definition save_to_logs (fs : FileState) (u st : string) (sc : Q) (now : Z)
  : FileState :=
  Stored (upsert (load_or_empty fs) u st sc now).

(** Lines 80-93.  [json.load] is not guarded here: a file that fails to
    parse makes the handler raise. *)
Definition get_logs (fs : FileState)
  : result (list ScanRecord * list ScanRecord) :=
  match fs with
  | Absent => Returned ([], [])
  | Corrupt => Raised "JSONDecodeError"
  | Stored logs =>
      let data := reverse logs in
      Returned (filter (λ i, status i = "safe") data,
                filter (λ i, status i ≠ "safe") data)
  end.

(** [data.get('url', '')]. *)
Definition get_url (data : Request) : string :=
  match json_url data with
  | Some u => u
  | None => EmptyString
  end.

(** Lines 95-151: the response and the history file after the request.
    Line 113 is [float(...) * 100], a product of floats. *)
Definition analyze (w : World) (fs : FileState) (data : Request)
  : Response * FileState :=
  let u := get_url data in
  if negb (PyStr.truthy u) then (ErrorResponse "Empty URL", fs)
  else
    match predict_bad w u with
    | Raised message => (ErrorResponse message, fs)
    | Returned p =>
        let ai_confidence := PyFloat.fmul (PyFloat.to_float p) 100 in
        let age := get_domain_age w u in
        let '(risk_score, reasons) := Scoring.risk ai_confidence age in
        let final := Scoring.final_score risk_score in
        let st := Scoring.status_of final in
        (ScanResponse st final reasons (Scoring.age_display age),
         save_to_logs fs u st final (now_save w))
    end.

(** Log states obtained from the empty log by saving scans. *)
Inductive reachable : FileState -> Prop :=
| reachable_empty : reachable Absent
| reachable_save fs u st sc now :
    reachable fs -> reachable (save_to_logs fs u st sc now).

End Service.

(** ** Histories written by the scan handler *)

(** What line 142 stores: one of the two statuses of line 140 with a score
    in the range of line 138, on the matching side of 50. *)
Definition well_scored (r : ScanRecord) : Prop :=
  (status r = "safe" \/ status r = "danger")
  /\ (0 <= score r <= 100)%Q
  /\ (status r = "danger" <-> (50 <= score r)%Q).

Section Requests.

Variable escape : string -> string.
Variable strftime : Z -> string.

(** File states obtained from a missing file by answering scan requests,
    each in a world of its own. *)
Inductive served : FileState -> Prop :=
| served_start : served Absent
| served_scan w fs data :
    served fs -> served (snd (analyze escape strftime w fs data)).

End Requests.

(** [markupsafe.escape] on a [str]: the five replacements it performs. *)
Definition escape_char (c : Ascii.ascii) : string :=
  if Ascii.eqb c "&"%char then "&amp;"
  else if Ascii.eqb c "<"%char then "&lt;"
  else if Ascii.eqb c ">"%char then "&gt;"
  else if Ascii.eqb c "'"%char then "&#39;"
  else if Ascii.eqb c (Ascii.ascii_of_nat 34) then "&#34;"
  else String c EmptyString.

Fixpoint markup_escape (s : string) : string :=
  match s with
  | EmptyString => EmptyString
  | String c rest => (escape_char c ++ markup_escape rest)%string
  end.

(** A stand-in clock format for the examples: the reading in decimal. *)
Definition clock_string (t : Z) : string := PyStr.str_of_int t.

(** ** Shapes of URLs, for stating when the extracted domain is the host *)

(** [c in s]. *)
Fixpoint has_char (c : Ascii.ascii) (s : string) : bool :=
  match s with
  | EmptyString => false
  | String d rest => Ascii.eqb c d || has_char c rest
  end.

(** [sep in s] for a non-empty [sep]. *)
Fixpoint contains (sep s : string) : bool :=
  match s with
  | EmptyString => false
  | String _ rest => String.prefix sep s || contains sep rest
  end.

(** The pieces of a split with [pre] put in front of the first piece. *)
Definition prepend_head (pre : string) (pieces : list string) : list string :=
  match pieces with
  | piece :: more => (pre ++ piece)%string :: more
  | [] => [pre]
  end.

(** ** Inputs of the examples *)

(** The classifier gives 0.8 to every URL and the registry reports every
    domain as created at the instant of the lookup. *)
Definition registered_today : World :=
  mkWorld true (λ _, WhoisEntry (CreationAt 1000)) (λ _, Returned (4 # 5)%Q)
    1000 1000.

(** A URL whose query string carries a second URL. *)
Definition redirect_url : string :=
  "http://evil.com/login?next=https://paypal.com/x".

(** The registry knows one domain, created 9000 days before the lookup. *)
Definition paypal_only_registry : World :=
  mkWorld true
    (λ d, if String.eqb d "paypal.com" then WhoisEntry (CreationAt 0)
          else WhoisFailed)
    (λ _, Returned (4 # 5)%Q)
    (9000 * seconds_per_day) (9000 * seconds_per_day).

(** The WHOIS module failed to import; the classifier gives 0.25. *)
Definition no_whois : World :=
  mkWorld false (λ _, WhoisFailed) (λ _, Returned (1 # 4)%Q) 0 77.

(** The WHOIS module failed to import; the classifier gives [p]. *)
Definition no_whois_with (p : Q) : World :=
  mkWorld false (λ _, WhoisFailed) (λ _, Returned p) 0 77.

(** Two stored scans. *)
Definition two_scans : list ScanRecord :=
  [mkScanRecord "http://a.com" "safe" 10 "2024-01-01 10:00:00";
   mkScanRecord "http://b.com" "danger" 90 "2024-01-02 11:30:00"].

(** * Properties *)

(** ** The primitives on small inputs *)

Example split_scheme :
  PyStr.split "//" "http://a.com/x" = ["http:"; "a.com/x"].
Proof. reflexivity. Qed.

Example split_no_overlap : PyStr.split "//" "a///b" = ["a"; "/b"].
Proof. reflexivity. Qed.

Example split_trailing : PyStr.split "/" "a.com/" = ["a.com"; ""].
Proof. reflexivity. Qed.

Example round1_tie_even : PyNum.round1 (1 # 4) = (2 # 10)%Q.
Proof. reflexivity. Qed.

Example format_1f_example : PyNum.format_1f (1999 # 20) = "100.0".
Proof. reflexivity. Qed.

Example str_of_int_examples :
  PyStr.str_of_int 0 = "0" /\ PyStr.str_of_int (-5) = "-5" /\ PyStr.str_of_int 1001 = "1001".
Proof. repeat split. Qed.

Example escape_example :
  markup_escape "http://a.com/?x=1&y=<2>" = "http://a.com/?x=1&amp;y=&lt;2&gt;".
Proof. reflexivity. Qed.

(** ** Scoring *)

Module ScoringFacts.

Import PyNum Scoring.
Local Open Scope Q_scope.

Lemma Qltb_true a b : Qltb a b = true <-> a < b.
Proof.
  unfold Qltb. rewrite negb_true_iff, <- not_true_iff_false, Qle_bool_iff.
  split; [apply Qnot_le_lt | apply Qlt_not_le].
Qed.

Lemma Qltb_false a b : Qltb a b = false <-> b <= a.
Proof.
  unfold Qltb. rewrite negb_false_iff. apply Qle_bool_iff.
Qed.

Lemma py_min_cases a b : (b < a /\ py_min a b = b) \/ (a <= b /\ py_min a b = a).
Proof.
  unfold py_min. destruct (Qltb b a) eqn:E.
  - left. apply Qltb_true in E. auto.
  - right. apply Qltb_false in E. auto.
Qed.

Lemma py_max_cases a b : (a < b /\ py_max a b = b) \/ (b <= a /\ py_max a b = a).
Proof.
  unfold py_max. destruct (Qltb a b) eqn:E.
  - left. apply Qltb_true in E. auto.
  - right. apply Qltb_false in E. auto.
Qed.

(** The clamp of line 138 returns one of [0], [100] or the rounded score,
    hence a whole number of tenths between 0 and 1000. *)
Lemma final_score_tenths (risk_score : Q) :
  exists k : Z, (0 <= k <= 1000)%Z /\ final_score risk_score == k # 10.
Proof.
  unfold final_score, round1.
  set (k := tenths risk_score).
  destruct (py_min_cases 100 (k # 10)) as [[Hlt ->] | [Hle ->]].
  - destruct (py_max_cases 0 (k # 10)) as [[Hpos ->] | [Hneg ->]].
    + exists k. split; [| reflexivity].
      unfold Qlt in Hlt, Hpos. simpl in Hlt, Hpos. lia.
    + exists 0%Z. split; [lia | reflexivity].
  - exists 1000%Z. split; [lia |].
    destruct (py_max_cases 0 100) as [[_ ->] | [Hneg _]]; [reflexivity |].
    exfalso. revert Hneg. apply Qlt_not_le. reflexivity.
Qed.

Lemma final_score_bounds (risk_score : Q) :
  0 <= final_score risk_score <= 100.
Proof.
  destruct (final_score_tenths risk_score) as (k & Hk & ->).
  unfold Qle. simpl. lia.
Qed.

Lemma status_of_danger (final : Q) :
  status_of final = "danger" <-> 50 <= final.
Proof.
  unfold status_of. destruct (Qle_bool 50 final) eqn:E.
  - apply Qle_bool_iff in E. tauto.
  - split; [discriminate |].
    intros H. apply Qle_bool_iff in H. congruence.
Qed.

Lemma status_of_safe (final : Q) :
  status_of final = "safe" <-> final < 50.
Proof.
  unfold status_of. destruct (Qle_bool 50 final) eqn:E.
  - apply Qle_bool_iff in E. split; [discriminate |].
    intros H. exfalso. revert E. apply Qlt_not_le, H.
  - split; [| reflexivity]. intros _. apply Qnot_le_lt.
    intros H. apply Qle_bool_iff in H. congruence.
Qed.

(** C1. For a classifier confidence between 0 and 100 and a domain age
    among unknown, 0, 29, 30, 500, 1000 and 1001, the final score lies
    between 0 and 100, is a whole number of tenths, and the status is
    "danger" exactly when the final score is at least 50. *)
Theorem final_score_clamped_and_status (ai_confidence : Q) (age : option Z) :
  0 <= ai_confidence <= 100 ->
  age ∈ listed_ages ->
  let final := final_score (fst (risk ai_confidence age)) in
  0 <= final <= 100
  /\ (exists k : Z, final == k # 10)
  /\ (status_of final = "danger" <-> 50 <= final).
Proof.
  intros _ _ final. subst final. split; [apply final_score_bounds |]. split.
  - destruct (final_score_tenths (fst (risk ai_confidence age))) as (k & _ & Hk).
    exists k. exact Hk.
  - apply status_of_danger.
Qed.

Lemma final_score_clamped_and_status_witness :
  let final := final_score (fst (risk 95 (Some 29%Z))) in
  0 <= final <= 100
  /\ (exists k : Z, final == k # 10)
  /\ (status_of final = "danger" <-> 50 <= final).
Proof.
  apply (final_score_clamped_and_status 95 (Some 29%Z)).
  - split; unfold Qle; simpl; lia.
  - unfold listed_ages. do 3 constructor.
Defined.

(** C3. A known age below 30 adds 15 to the risk score and appends the
    brand-new-domain reason; an age from 30 to 1000 changes neither the
    score nor the reasons; an age above 1000 subtracts 10 and appends the
    established-domain reason; an unknown age changes nothing.  The sum and
    the difference are those of floats.  [risk] is a total function, so no
    case raises. *)
Theorem age_adjustment (ai_confidence : Q) :
  risk ai_confidence None = (ai_confidence, [ai_reason ai_confidence])
  /\ (forall a : Z, (a < 30)%Z ->
        risk ai_confidence (Some a)
        = (PyFloat.fadd ai_confidence 15,
           [ai_reason ai_confidence; brand_new_reason a]))
  /\ (forall a : Z, (30 <= a <= 1000)%Z ->
        risk ai_confidence (Some a) = (ai_confidence, [ai_reason ai_confidence]))
  /\ (forall a : Z, (1000 < a)%Z ->
        risk ai_confidence (Some a)
        = (PyFloat.fsub ai_confidence 10,
           [ai_reason ai_confidence; established_reason])).
Proof.
  unfold risk, adjust_for_age. split; [reflexivity |].
  split; [| split]; intros a Ha; cbn [fst snd app].
  - apply Z.ltb_lt in Ha. rewrite Ha. reflexivity.
  - destruct (Z.ltb_spec a 30); [lia |].
    destruct (Z.ltb_spec 1000 a); [lia | reflexivity].
  - destruct (Z.ltb_spec a 30); [lia |].
    destruct (Z.ltb_spec 1000 a); [reflexivity | lia].
Qed.

Lemma age_adjustment_witness :
  risk 80 (Some 29%Z)
  = (PyFloat.fadd 80 15, [ai_reason 80; brand_new_reason 29])
  /\ risk 80 (Some 30%Z) = (80, [ai_reason 80])
  /\ risk 80 (Some 1000%Z) = (80, [ai_reason 80])
  /\ risk 80 (Some 1001%Z)
     = (PyFloat.fsub 80 10, [ai_reason 80; established_reason]).
Proof.
  destruct (age_adjustment 80) as (_ & Hnew & Hmid & Hold).
  split; [| split; [| split]].
  - apply Hnew. lia.
  - apply Hmid. lia.
  - apply Hmid. lia.
  - apply Hold. lia.
Defined.

(** The sums of the examples are exact: 80 + 15 is 95 and 80 - 10 is 70. *)
Example adjusted_scores_80 :
  (PyFloat.fadd 80 15 == 95 /\ PyFloat.fsub 80 10 == 70)%Q.
Proof. split; vm_compute; reflexivity. Qed.

(** A sum that is not exact: the float next above 0.35 plus 15 is a float
    below 15.35, so the score rounds to 15.3, and 100 minus that float
    prints as 99.7. *)
Example adjusted_score_inexact :
  final_score
    (fst (risk (PyFloat.to_float (35000000000000003 # 100000000000000000))
            (Some 29%Z)))
  = (153 # 10)%Q
  /\ snd (risk (PyFloat.to_float (35000000000000003 # 100000000000000000))
            (Some 29%Z))
     = ["AI Analysis indicates a 99.7% safety confidence";
        "Security Alert: Domain is brand new (29 days old)"].
Proof. split; vm_compute; reflexivity. Qed.

Example brand_new_reason_29 :
  snd (risk 80 (Some 29%Z))
  = ["AI Model is 80.0% confident this matches phishing patterns";
     "Security Alert: Domain is brand new (29 days old)"].
Proof. reflexivity. Qed.

Example safety_reason_unknown_age :
  risk (25 # 2) None = (25 # 2, ["AI Analysis indicates a 87.5% safety confidence"]).
Proof. reflexivity. Qed.

(** *** The age shown in the response (line 148) *)

Lemma age_display_unknown : age_display None = "Unknown".
Proof. reflexivity. Qed.

Lemma age_display_nonzero (a : Z) :
  a <> 0%Z -> age_display (Some a) = (PyStr.str_of_int a ++ " days")%string.
Proof.
  intros Ha. unfold age_display.
  destruct (Z.eqb_spec a 0); [contradiction | reflexivity].
Qed.

(** A domain registered today has the known age 0, which line 129 treats
    as known and line 148 shows as "Unknown" instead of "0 days". *)
Lemma age_display_zero_is_unknown :
  age_display (Some 0%Z) = "Unknown"
  /\ age_display (Some 0%Z) <> (PyStr.str_of_int 0 ++ " days")%string
  /\ snd (risk 80 (Some 0%Z))
     = [ai_reason 80; "Security Alert: Domain is brand new (0 days old)"].
Proof. repeat split. discriminate. Qed.

End ScoringFacts.

(** ** The history log *)

Section ServiceFacts.

Variable escape : string -> string.
Variable strftime : Z -> string.

Local Abbreviation upsert := (upsert escape strftime).
Local Abbreviation save_to_logs := (save_to_logs escape strftime).
Local Abbreviation reachable := (reachable escape strftime).
Local Abbreviation fresh_record := (fresh_record escape strftime).
Local Abbreviation analyze := (analyze escape strftime).

Implicit Types (logs : list ScanRecord) (fs : FileState) (r : ScanRecord).
Implicit Types (u st : string) (sc : Q) (now : Z).

(** *** [upsert] by cases on the head of the list *)

Lemma upsert_nil u st sc now :
  upsert [] u st sc now = [fresh_record u st sc now].
Proof. reflexivity. Qed.

Lemma upsert_cons_match r logs u st sc now :
  url r = escape u ->
  upsert (r :: logs) u st sc now
  = mkScanRecord (url r) st sc (strftime now) :: logs.
Proof.
  intros Hr. unfold upsert. cbn [list_find].
  case_decide; [reflexivity | contradiction].
Qed.

Lemma upsert_cons_other r logs u st sc now :
  url r ≠ escape u ->
  upsert (r :: logs) u st sc now = r :: upsert logs u st sc now.
Proof.
  intros Hr. unfold upsert. cbn [list_find].
  case_decide; [contradiction |].
  destruct (list_find _ logs) as [[i item] |]; reflexivity.
Qed.

Lemma no_match_filter logs (key : string) :
  key ∉ url <$> logs -> filter (λ r, url r = key) logs = [].
Proof.
  induction logs as [| r logs IH]; intros Hk; [reflexivity |].
  rewrite fmap_cons, not_elem_of_cons in Hk. destruct Hk as [Hne Hk].
  rewrite filter_cons_False by congruence. auto.
Qed.

(** *** Keys: an upsert adds the escaped URL when it is new and nothing
    otherwise *)

Lemma upsert_urls_present logs u st sc now :
  escape u ∈ url <$> logs ->
  url <$> upsert logs u st sc now = url <$> logs.
Proof.
  induction logs as [| r logs IH]; intros Hin.
  - inversion Hin.
  - destruct (decide (url r = escape u)) as [Heq | Hne].
    + rewrite upsert_cons_match by assumption. reflexivity.
    + rewrite upsert_cons_other by assumption.
      rewrite !fmap_cons. f_equal. apply IH.
      rewrite fmap_cons, elem_of_cons in Hin. destruct Hin; congruence.
Qed.

Lemma upsert_urls_absent logs u st sc now :
  escape u ∉ url <$> logs ->
  upsert logs u st sc now = logs ++ [fresh_record u st sc now].
Proof.
  induction logs as [| r logs IH]; intros Hk; [reflexivity |].
  rewrite fmap_cons, not_elem_of_cons in Hk. destruct Hk as [Hne Hk].
  rewrite upsert_cons_other by congruence. rewrite IH by assumption.
  reflexivity.
Qed.

Lemma upsert_unique logs u st sc now :
  unique_urls logs -> unique_urls (upsert logs u st sc now).
Proof.
  unfold unique_urls. intros Hnd.
  destruct (decide (escape u ∈ url <$> logs)) as [Hin | Hout].
  - rewrite upsert_urls_present by assumption. exact Hnd.
  - rewrite upsert_urls_absent by assumption.
    rewrite fmap_app. apply NoDup_app. split; [exact Hnd |]. split.
    + intros k Hk Hk'. apply list_elem_of_singleton in Hk'.
      simpl in Hk'. congruence.
    + apply NoDup_singleton.
Qed.

(** *** The record kept for the URL *)

Lemma upsert_filter_key logs u st sc now :
  unique_urls logs ->
  filter (λ r, url r = escape u) (upsert logs u st sc now)
  = [fresh_record u st sc now].
Proof.
  unfold unique_urls.
  induction logs as [| r logs IH]; intros Hnd.
  - rewrite upsert_nil. apply filter_singleton_True; [exact [] | reflexivity].
  - rewrite fmap_cons in Hnd. apply NoDup_cons in Hnd as [Hr Hnd].
    destruct (decide (url r = escape u)) as [Heq | Hne].
    + rewrite upsert_cons_match by assumption.
      rewrite filter_cons_True by assumption.
      rewrite no_match_filter by congruence.
      unfold fresh_record. rewrite Heq. reflexivity.
    + rewrite upsert_cons_other by assumption.
      rewrite filter_cons_False by assumption. auto.
Qed.

(** *** Two upserts of one URL *)

Lemma upsert_upsert logs u st1 sc1 t1 st2 sc2 t2 :
  upsert (upsert logs u st1 sc1 t1) u st2 sc2 t2 = upsert logs u st2 sc2 t2.
Proof.
  induction logs as [| r logs IH].
  - rewrite !upsert_nil. unfold fresh_record.
    rewrite upsert_cons_match by reflexivity. reflexivity.
  - destruct (decide (url r = escape u)) as [Heq | Hne].
    + rewrite !upsert_cons_match by assumption. reflexivity.
    + rewrite !upsert_cons_other by assumption. f_equal. apply IH.
Qed.

Lemma upsert_length_present logs u st sc now :
  escape u ∈ url <$> logs ->
  length (upsert logs u st sc now) = length logs.
Proof.
  intros Hin.
  rewrite <- (length_fmap url (upsert logs u st sc now)).
  rewrite upsert_urls_present by assumption. apply length_fmap.
Qed.

(** *** Every log the service can produce satisfies the invariant *)

Lemma reachable_unique fs : reachable fs -> unique_urls (load_or_empty fs).
Proof.
  induction 1 as [| fs u st sc now _ IH]; simpl.
  - apply NoDup_nil_2.
  - apply upsert_unique, IH.
Qed.

(** C2. In every log reached from the empty log by saving scans, no two
    records share an escaped URL.  Saving a URL that is already there keeps
    the number of records and their URLs and leaves one record for that
    URL, carrying the new status, score and time; hence two saves of one
    URL leave one record for it, with the status and score of the second. *)
Theorem one_record_per_url fs :
  reachable fs ->
  unique_urls (load_or_empty fs)
  /\ (forall u st sc now,
        escape u ∈ url <$> load_or_empty fs ->
        let logs' := load_or_empty (save_to_logs fs u st sc now) in
        length logs' = length (load_or_empty fs)
        /\ url <$> logs' = url <$> load_or_empty fs
        /\ filter (λ r, url r = escape u) logs' = [fresh_record u st sc now])
  /\ (forall u st1 sc1 t1 st2 sc2 t2,
        filter (λ r, url r = escape u)
          (load_or_empty
             (save_to_logs (save_to_logs fs u st1 sc1 t1) u st2 sc2 t2))
        = [fresh_record u st2 sc2 t2]).
Proof.
  intros Hreach. pose proof (reachable_unique fs Hreach) as Huniq.
  split; [exact Huniq |]. split.
  - intros u st sc now Hin. simpl. split; [| split].
    + apply upsert_length_present, Hin.
    + apply upsert_urls_present, Hin.
    + apply upsert_filter_key, Huniq.
  - intros u st1 sc1 t1 st2 sc2 t2. simpl.
    rewrite upsert_upsert. apply upsert_filter_key, Huniq.
Qed.

(** *** Saving the same scan twice *)

(** What the second of two identical saves does to a record of the first. *)
Lemma retime_absent logs u now :
  escape u ∉ url <$> logs ->
  (λ r, if decide (url r = escape u)
        then mkScanRecord (url r) (status r) (score r) (strftime now)
        else r) <$> logs = logs.
Proof.
  induction logs as [| r logs IH]; intros Hk; [reflexivity |].
  rewrite fmap_cons, not_elem_of_cons in Hk. destruct Hk as [Hne Hk].
  rewrite fmap_cons, IH by assumption.
  case_decide; [congruence | reflexivity].
Qed.

Lemma upsert_retime logs u st sc t1 t2 :
  unique_urls logs ->
  upsert logs u st sc t2
  = (λ r, if decide (url r = escape u)
          then mkScanRecord (url r) (status r) (score r) (strftime t2)
          else r) <$> upsert logs u st sc t1.
Proof.
  unfold unique_urls.
  induction logs as [| r logs IH]; intros Hnd.
  - rewrite !upsert_nil. simpl. case_decide; [reflexivity | contradiction].
  - rewrite fmap_cons in Hnd. apply NoDup_cons in Hnd as [Hr Hnd].
    destruct (decide (url r = escape u)) as [Heq | Hne].
    + rewrite !upsert_cons_match by assumption.
      rewrite fmap_cons, retime_absent by congruence. simpl.
      case_decide; [reflexivity | contradiction].
    + rewrite !upsert_cons_other by assumption.
      rewrite fmap_cons, <- IH by assumption.
      case_decide; [contradiction | reflexivity].
Qed.

(** C8. On a log without duplicate URLs (every reachable log is one, see
    [reachable_unique]), saving the same URL, status and score twice leaves
    one record for the URL, with the time of the second save; the log is
    the one a single save at the second time gives, and it is the log after
    the first save with only the time of that URL's record replaced. *)
Theorem save_twice_same_scan fs u st sc t1 t2 :
  unique_urls (load_or_empty fs) ->
  let once := load_or_empty (save_to_logs fs u st sc t1) in
  let twice :=
    load_or_empty (save_to_logs (save_to_logs fs u st sc t1) u st sc t2) in
  filter (λ r, url r = escape u) twice = [fresh_record u st sc t2]
  /\ twice = load_or_empty (save_to_logs fs u st sc t2)
  /\ twice
     = (λ r, if decide (url r = escape u)
             then mkScanRecord (url r) (status r) (score r) (strftime t2)
             else r) <$> once
  /\ length twice = length once.
Proof.
  intros Huniq. simpl. rewrite upsert_upsert.
  split; [apply upsert_filter_key, Huniq |].
  split; [reflexivity |].
  split; [apply upsert_retime, Huniq |].
  rewrite (upsert_retime _ u st sc t1 t2 Huniq). apply length_fmap.
Qed.

(** *** What an update leaves alone *)

(** C10. Saving a URL that is already in the log changes one record, the
    first one with that URL: the log keeps its length, the record keeps its
    position and its URL and takes the new status, score and time, and the
    record at every other position is the one that was there. *)
Theorem update_frame fs u st sc now :
  escape u ∈ url <$> load_or_empty fs ->
  let logs := load_or_empty fs in
  let logs' := load_or_empty (save_to_logs fs u st sc now) in
  length logs' = length logs
  /\ exists i item,
       logs !! i = Some item
       /\ url item = escape u
       /\ (forall j r, logs !! j = Some r -> (j < i)%nat -> url r ≠ escape u)
       /\ logs' !! i = Some (mkScanRecord (url item) st sc (strftime now))
       /\ (forall j, j ≠ i -> logs' !! j = logs !! j).
Proof.
  intros Hin. simpl.
  split; [apply upsert_length_present, Hin |].
  apply list_elem_of_fmap in Hin as (r0 & Hr0 & Hmem).
  destruct (list_find_elem_of (λ item, url item = escape u) _ r0 Hmem)
    as [[i item] Hfind]; [congruence |].
  unfold upsert. rewrite Hfind.
  apply list_find_Some in Hfind as (Hi & Hitem & Hfirst).
  exists i, item. repeat split; try assumption.
  - apply list_lookup_insert_eq. eapply lookup_lt_Some, Hi.
  - intros j Hj. apply list_lookup_insert_ne. congruence.
Qed.

(** *** Reading the log *)

Lemma get_logs_stored logs :
  get_logs (Stored logs)
  = Returned (reverse (filter (λ r, status r = "safe") logs),
              reverse (filter (λ r, status r ≠ "safe") logs)).
Proof. simpl. rewrite !filter_reverse. reflexivity. Qed.

(** Three first scans of three different URLs are three appends. *)
Lemma save_three_new x y z stx sty stz sx sy sz t1 t2 t3 :
  escape x ≠ escape y -> escape x ≠ escape z -> escape y ≠ escape z ->
  save_to_logs
    (save_to_logs (save_to_logs Absent x stx sx t1) y sty sy t2) z stz sz t3
  = Stored [fresh_record x stx sx t1; fresh_record y sty sy t2;
            fresh_record z stz sz t3].
Proof.
  intros Hxy Hxz Hyz. unfold save_to_logs. simpl load_or_empty.
  rewrite upsert_nil.
  rewrite upsert_cons_other, upsert_nil by (simpl; congruence).
  rewrite !upsert_cons_other, upsert_nil by (simpl; congruence).
  reflexivity.
Qed.

(** C4. For a stored log, [get_logs] returns two buckets: the records whose
    status is "safe" and the records whose status is not, each in reversed
    insertion order, that is, each a sub-sequence of the reversed log.
    After first scans of three different URLs X (safe), Y (danger) and
    Z (safe) the buckets are [Z, X] and [Y]. *)
Theorem get_logs_partition :
  (forall logs, exists good bad,
      get_logs (Stored logs) = Returned (good, bad)
      /\ good = reverse (filter (λ r, status r = "safe") logs)
      /\ bad = reverse (filter (λ r, status r ≠ "safe") logs)
      /\ (forall r, r ∈ good <-> r ∈ logs /\ status r = "safe")
      /\ (forall r, r ∈ bad <-> r ∈ logs /\ status r ≠ "safe")
      /\ good `sublist_of` reverse logs
      /\ bad `sublist_of` reverse logs)
  /\ (forall x y z sx sy sz t1 t2 t3,
        escape x ≠ escape y -> escape x ≠ escape z -> escape y ≠ escape z ->
        get_logs
          (save_to_logs
             (save_to_logs (save_to_logs Absent x "safe" sx t1)
                y "danger" sy t2)
             z "safe" sz t3)
        = Returned ([fresh_record z "safe" sz t3; fresh_record x "safe" sx t1],
                    [fresh_record y "danger" sy t2])).
Proof.
  split.
  - intros logs. eexists _, _. split; [apply get_logs_stored |].
    split; [reflexivity |]. split; [reflexivity |].
    split; [| split; [| split]].
    + intros r. rewrite elem_of_reverse, list_elem_of_filter. tauto.
    + intros r. rewrite elem_of_reverse, list_elem_of_filter. tauto.
    + rewrite <- filter_reverse. apply sublist_filter.
    + rewrite <- filter_reverse. apply sublist_filter.
  - intros x y z sx sy sz t1 t2 t3 Hxy Hxz Hyz.
    rewrite save_three_new by assumption. reflexivity.
Qed.

(** *** A history file that does not parse *)

Lemma save_to_logs_corrupt u st sc now :
  save_to_logs Corrupt u st sc now = Stored [fresh_record u st sc now].
Proof. reflexivity. Qed.

(** C5, at the failing input: on a file that does not parse, [save_to_logs]
    starts from the empty log, as for a missing file, but [get_logs] raises
    and returns no buckets. *)
Theorem get_logs_corrupt_raises :
  load_or_empty Corrupt = []
  /\ (forall u st sc now,
        save_to_logs Corrupt u st sc now = save_to_logs Absent u st sc now)
  /\ get_logs Absent = Returned ([], [])
  /\ get_logs Corrupt = Raised "JSONDecodeError"
  /\ (forall buckets, get_logs Corrupt ≠ Returned buckets).
Proof. repeat split. discriminate. Qed.

(** *** Scan requests *)

Lemma truthy_false (s : string) : PyStr.truthy s = false <-> s = "".
Proof. destruct s; simpl; split; intros H; congruence. Qed.

(** C7. A scan request whose URL is empty, or which has no URL, is answered
    with the error "Empty URL" and the history file is the one before the
    request. *)
Theorem analyze_empty_url (w : World) fs (data : Request) :
  get_url data = "" ->
  analyze w fs data = (ErrorResponse "Empty URL", fs).
Proof.
  intros Hu. unfold analyze. rewrite Hu. reflexivity.
Qed.

(** A scan the classifier answers: the response and the file written. *)
Lemma analyze_scan (w : World) fs (data : Request) (p : Q) :
  get_url data ≠ "" ->
  predict_bad w (get_url data) = Returned p ->
  let u := get_url data in
  let age := get_domain_age w u in
  let final := Scoring.final_score (fst (Scoring.risk (PyFloat.fmul (PyFloat.to_float p) 100) age)) in
  analyze w fs data
  = (ScanResponse (Scoring.status_of final) final
       (snd (Scoring.risk (PyFloat.fmul (PyFloat.to_float p) 100) age)) (Scoring.age_display age),
     save_to_logs fs u (Scoring.status_of final) final (now_save w)).
Proof.
  intros Hu Hp. unfold analyze.
  destruct (PyStr.truthy (get_url data)) eqn:Ht.
  - simpl. rewrite Hp.
    destruct (Scoring.risk (PyFloat.fmul (PyFloat.to_float p) 100) (get_domain_age w (get_url data))).
    reflexivity.
  - apply truthy_false in Ht. contradiction.
Qed.

(** A scan the classifier fails on: the failure is the response and nothing
    is written. *)
Lemma analyze_classifier_failure (w : World) fs (data : Request) message :
  get_url data ≠ "" ->
  predict_bad w (get_url data) = Raised message ->
  analyze w fs data = (ErrorResponse message, fs).
Proof.
  intros Hu Hp. unfold analyze.
  destruct (PyStr.truthy (get_url data)) eqn:Ht.
  - simpl. rewrite Hp. reflexivity.
  - apply truthy_false in Ht. contradiction.
Qed.

End ServiceFacts.

(** ** The properties on concrete inputs *)

Lemma two_scans_unique : unique_urls two_scans.
Proof.
  unfold unique_urls, two_scans. simpl.
  apply NoDup_cons. split; [| apply NoDup_singleton].
  rewrite list_elem_of_singleton. discriminate.
Qed.

Lemma one_record_per_url_witness :
  let fs := save_to_logs markup_escape clock_string Absent "http://a.com" "safe" 10 1 in
  unique_urls (load_or_empty fs)
  /\ filter (λ r, url r = "http://a.com")
       (load_or_empty
          (save_to_logs markup_escape clock_string fs "http://a.com" "danger" 90 2))
     = [mkScanRecord "http://a.com" "danger" 90 "2"].
Proof.
  intros fs.
  destruct (one_record_per_url markup_escape clock_string fs) as (Huniq & Hupd & _).
  - apply reachable_save, reachable_empty.
  - split; [exact Huniq |].
    apply (Hupd "http://a.com" "danger" 90%Q 2%Z). simpl. left.
Defined.

(** The dedup case of the test plan, from the empty log. *)
Example dedup_example :
  save_to_logs markup_escape clock_string
    (save_to_logs markup_escape clock_string Absent "http://a.com" "safe" 10 1)
    "http://a.com" "danger" 90 2
  = Stored [mkScanRecord "http://a.com" "danger" 90 "2"].
Proof. reflexivity. Qed.

Lemma save_twice_same_scan_witness :
  let once :=
    load_or_empty
      (save_to_logs markup_escape clock_string (Stored two_scans)
         "http://b.com" "safe" 20 5) in
  let twice :=
    load_or_empty
      (save_to_logs markup_escape clock_string
         (save_to_logs markup_escape clock_string (Stored two_scans)
            "http://b.com" "safe" 20 5)
         "http://b.com" "safe" 20 6) in
  filter (λ r, url r = "http://b.com") twice
  = [mkScanRecord "http://b.com" "safe" 20 "6"]
  /\ length twice = length once.
Proof.
  intros once twice.
  destruct (save_twice_same_scan markup_escape clock_string (Stored two_scans)
              "http://b.com" "safe" 20%Q 5%Z 6%Z) as (Hone & _ & _ & Hlen).
  - exact two_scans_unique.
  - split; [exact Hone | exact Hlen].
Defined.

Lemma update_frame_witness :
  let logs' :=
    load_or_empty
      (save_to_logs markup_escape clock_string (Stored two_scans)
         "http://b.com" "safe" 20 5) in
  length logs' = length two_scans.
Proof.
  intros logs'.
  destruct (update_frame markup_escape clock_string (Stored two_scans)
              "http://b.com" "safe" 20%Q 5%Z) as (Hlen & _).
  - simpl. right. left.
  - exact Hlen.
Defined.

Example update_frame_example :
  save_to_logs markup_escape clock_string (Stored two_scans)
    "http://a.com" "danger" 75 5
  = Stored [mkScanRecord "http://a.com" "danger" 75 "5";
            mkScanRecord "http://b.com" "danger" 90 "2024-01-02 11:30:00"].
Proof. reflexivity. Qed.

Lemma get_logs_partition_witness :
  get_logs
    (save_to_logs markup_escape clock_string
       (save_to_logs markup_escape clock_string
          (save_to_logs markup_escape clock_string Absent
             "http://x.org" "safe" 12 1)
          "http://y.org" "danger" 88 2)
       "http://z.org" "safe" 3 3)
  = Returned ([mkScanRecord "http://z.org" "safe" 3 "3";
               mkScanRecord "http://x.org" "safe" 12 "1"],
              [mkScanRecord "http://y.org" "danger" 88 "2"]).
Proof.
  destruct (get_logs_partition markup_escape clock_string) as (_ & Hxyz).
  apply (Hxyz "http://x.org" "http://y.org" "http://z.org"); simpl; discriminate.
Defined.

Lemma analyze_empty_url_witness :
  analyze markup_escape clock_string registered_today (Stored two_scans)
    (mkRequest (Some ""))
  = (ErrorResponse "Empty URL", Stored two_scans)
  /\ analyze markup_escape clock_string registered_today (Stored two_scans)
       (mkRequest None)
     = (ErrorResponse "Empty URL", Stored two_scans).
Proof.
  split; apply analyze_empty_url; reflexivity.
Defined.

(** C6, at the failing input: the registry reports a domain created at the
    instant of the lookup, so the age is the known value 0; the response
    carries the reason for a domain 0 days old and shows the age as
    "Unknown", not as "0 days". *)
Theorem analyze_age_zero_shown_unknown :
  get_domain_age registered_today "http://new.example/" = Some 0%Z
  /\ fst (analyze markup_escape clock_string registered_today Absent
            (mkRequest (Some "http://new.example/")))
     = ScanResponse "danger" (950 # 10)
         ["AI Model is 80.0% confident this matches phishing patterns";
          "Security Alert: Domain is brand new (0 days old)"]
         "Unknown".
Proof. split; reflexivity. Qed.

(** C9, at the failing input: the piece after the last double slash is
    taken, so a URL with a second double slash behind the host makes the
    lookup query what follows it, not the host. *)
Theorem domain_name_after_last_double_slash :
  domain_name redirect_url = "paypal.com"
  /\ domain_name redirect_url ≠ "evil.com"
  /\ get_domain_age paypal_only_registry redirect_url = Some 9000%Z
  /\ domain_name "http://evil.com/a//b" = "b".
Proof. repeat split. discriminate. Qed.

(** ** Domain extraction *)

Module DomainFacts.

Import PyStr.

Lemma split_from_nonempty sep k s : split_from sep k s ≠ [].
Proof.
  revert k. induction s as [| c rest IH]; intros k; cbn [split_from];
    [discriminate |].
  destruct k as [| k]; [| apply IH].
  destruct (String.prefix sep (String c rest)); [discriminate |].
  destruct (split_from sep 0 rest); discriminate.
Qed.

(** A string without the separator is one piece. *)
Lemma split_no_sep sep s : contains sep s = false -> split sep s = [s].
Proof.
  unfold split. induction s as [| c rest IH]; intros Hc; [reflexivity |].
  cbn [contains] in Hc. apply orb_false_iff in Hc as [Hp Hrest].
  cbn [split_from]. rewrite Hp, (IH Hrest). reflexivity.
Qed.

(** The characters of a recognised separator are dropped. *)
Lemma split_from_skip sep pre s :
  split_from sep (String.length pre) (pre ++ s) = split_from sep 0 s.
Proof.
  induction pre as [| c pre IH]; [reflexivity | exact IH].
Qed.

Lemma prefix_app_self sep s : String.prefix sep (sep ++ s) = true.
Proof.
  induction sep as [| a sep IH]; simpl; [destruct s; reflexivity |].
  destruct (Ascii.ascii_dec a a); [exact IH | contradiction].
Qed.

Lemma append_cons c (s1 s2 : string) :
  (String c s1 ++ s2)%string = String c (s1 ++ s2).
Proof. reflexivity. Qed.

Lemma append_nil_r (s : string) : (s ++ "")%string = s.
Proof.
  induction s as [| c s IH]; [reflexivity |].
  rewrite append_cons, IH. reflexivity.
Qed.

Lemma append_assoc (s1 s2 s3 : string) :
  ((s1 ++ s2) ++ s3)%string = (s1 ++ s2 ++ s3)%string.
Proof.
  induction s1 as [| c s1 IH]; [reflexivity |].
  rewrite !append_cons, IH. reflexivity.
Qed.

(** A separator at the head closes an empty piece. *)
Lemma split_at_sep a sep s :
  split (String a sep) (String a sep ++ s)
  = EmptyString :: split (String a sep) s.
Proof.
  unfold split. rewrite append_cons. cbn [split_from].
  rewrite <- append_cons, prefix_app_self.
  replace (String.length (String a sep) - 1)%nat with (String.length sep)
    by (cbn [String.length]; lia).
  rewrite split_from_skip. reflexivity.
Qed.

(** Characters other than the first of the separator stay in the piece. *)
Lemma split_prepend a sep pre s :
  has_char a pre = false ->
  split (String a sep) (pre ++ s)
  = prepend_head pre (split (String a sep) s).
Proof.
  unfold split. induction pre as [| c pre IH]; intros Hc.
  - change ("" ++ s)%string with s.
    destruct (split_from (String a sep) 0 s) eqn:E; [| reflexivity].
    exfalso. exact (split_from_nonempty _ _ _ E).
  - cbn [has_char] in Hc. apply orb_false_iff in Hc as [Hac Hpre].
    rewrite append_cons. cbn [split_from String.prefix].
    destruct (Ascii.ascii_dec a c) as [-> | _].
    + rewrite Ascii.eqb_refl in Hac. discriminate.
    + rewrite (IH Hpre).
      destruct (split_from (String a sep) 0 s) eqn:E; [| reflexivity].
      exfalso. exact (split_from_nonempty _ _ _ E).
Qed.

Lemma has_char_app c s1 s2 :
  has_char c (s1 ++ s2) = has_char c s1 || has_char c s2.
Proof.
  induction s1 as [| d s1 IH]; [reflexivity |].
  rewrite append_cons. cbn [has_char]. rewrite IH. apply orb_assoc.
Qed.

(** After the scheme: the host is the piece before the first slash. *)
Lemma first_piece_is_host host path :
  has_char "/" host = false ->
  first_item (split "/" (host ++ "/" ++ path)) = host.
Proof.
  intros Hh. rewrite (split_prepend "/" "" host _ Hh).
  rewrite (split_at_sep "/" "" path). cbn [prepend_head first_item hd].
  apply append_nil_r.
Qed.

(** X18. Where the code and the description of the lookup agree: for a URL
    [scheme://host/path] with no slash in the scheme or the host and no
    double slash behind the scheme, the domain queried is the host. *)
Lemma domain_name_is_host scheme host path :
  has_char "/" scheme = false ->
  has_char "/" host = false ->
  contains "//" (host ++ "/" ++ path) = false ->
  domain_name (scheme ++ "://" ++ host ++ "/" ++ path) = host.
Proof.
  intros Hs Hh Hrest. unfold domain_name.
  assert (Hsplit :
    split "//" (scheme ++ "://" ++ host ++ "/" ++ path)
    = [(scheme ++ ":")%string; (host ++ "/" ++ path)%string]).
  { change ("://" ++ host ++ "/" ++ path)%string
      with (":" ++ "//" ++ host ++ "/" ++ path)%string.
    rewrite <- append_assoc.
    rewrite (split_prepend "/" "/" (scheme ++ ":")).
    - rewrite (split_at_sep "/" "/"), (split_no_sep _ _ Hrest).
      cbn [prepend_head]. rewrite append_nil_r. reflexivity.
    - rewrite has_char_app, Hs. reflexivity. }
  rewrite Hsplit. apply first_piece_is_host, Hh.
Qed.

(** A string without the first character of the separator is one piece. *)
Lemma split_no_char a sep s :
  has_char a s = false -> split (String a sep) s = [s].
Proof.
  intros Hc. pose proof (split_prepend a sep s "" Hc) as E.
  rewrite append_nil_r in E. rewrite E.
  change (split (String a sep) "") with [EmptyString].
  cbn [prepend_head]. rewrite append_nil_r. reflexivity.
Qed.

(** X19. The same without a path: for [scheme://host] with no slash in the
    scheme or the host, the domain queried is the host. *)
Lemma domain_name_is_host_no_path scheme host :
  has_char "/" scheme = false ->
  has_char "/" host = false ->
  domain_name (scheme ++ "://" ++ host) = host.
Proof.
  intros Hs Hh. unfold domain_name.
  change ("://" ++ host)%string with (":" ++ "//" ++ host)%string.
  rewrite <- append_assoc.
  rewrite (split_prepend "/" "/" (scheme ++ ":"))
    by (rewrite has_char_app, Hs; reflexivity).
  rewrite (split_at_sep "/" "/"), (split_no_char "/" "/" host Hh).
  cbn [prepend_head last_item List.last].
  rewrite (split_no_char "/" "" host Hh). reflexivity.
Qed.

Lemma domain_name_is_host_witness :
  domain_name "https://a.com/x/y?q=1" = "a.com".
Proof. apply (domain_name_is_host "https" "a.com" "x/y?q=1"); reflexivity. Defined.

Lemma domain_name_is_host_no_path_witness :
  domain_name "https://a.com" = "a.com".
Proof. apply (domain_name_is_host_no_path "https" "a.com"); reflexivity. Defined.

End DomainFacts.

(** ** Rounding and clamping of the score (line 138) *)

Module RoundingFacts.

Import PyNum Scoring ScoringFacts.
Local Open Scope Z_scope.

(** The rounded value is within a half of the argument, and on a tie it is
    even. *)
Lemma round_half_even_spec (x : Q) :
  let k := round_half_even x in
  let n := Qnum x in
  let d := Zpos (Qden x) in
  - d <= 2 * (n - k * d) <= d
  /\ (2 * (n - k * d) = d \/ 2 * (n - k * d) = - d -> Z.even k = true).
Proof.
  intros k n d. subst k. unfold round_half_even. fold n d.
  assert (Hd : 0 < d) by (subst d; lia).
  pose proof (Z.div_mod n d ltac:(lia)) as Hn.
  pose proof (Z.mod_pos_bound n d Hd) as Hr.
  set (f := n / d) in *. set (r := n mod d) in *.
  destruct (Z.compare_spec (2 * r) d) as [He | Hl | Hg].
  - destruct (Z.even f) eqn:Hf.
    + split; [lia | intros _; exact Hf].
    + split; [lia |]. intros _.
      replace (f + 1) with (Z.succ f) by lia.
      rewrite Z.even_succ, <- Z.negb_even, Hf. reflexivity.
  - split; [lia | intros [H | H]; lia].
  - split; [lia | intros [H | H]; lia].
Qed.

Lemma round_half_even_mono (x y : Q) :
  (x <= y)%Q -> round_half_even x <= round_half_even y.
Proof.
  intros Hxy. unfold Qle in Hxy.
  destruct (round_half_even_spec x) as [[Hx1 _] Hxt].
  destruct (round_half_even_spec y) as [[_ Hy2] Hyt].
  set (k1 := round_half_even x) in *. set (k2 := round_half_even y) in *.
  set (n1 := Qnum x) in *. set (n2 := Qnum y) in *.
  set (d1 := Zpos (Qden x)) in *. set (d2 := Zpos (Qden y)) in *.
  assert (Hd1 : 0 < d1) by (subst d1; lia).
  assert (Hd2 : 0 < d2) by (subst d2; lia).
  destruct (Z.le_gt_cases k1 k2) as [Hle | Hgt]; [exact Hle | exfalso].
  assert (HA : (2 * k1 - 1) * (d1 * d2) <= 2 * (n1 * d2)) by nia.
  assert (HB : 2 * (n2 * d1) <= (2 * k2 + 1) * (d1 * d2)) by nia.
  assert (HD : 0 < d1 * d2) by nia.
  assert (Hk : k1 = k2 + 1) by nia.
  assert (Ht1 : 2 * (n1 - k1 * d1) = - d1) by nia.
  assert (Ht2 : 2 * (n2 - k2 * d2) = d2) by nia.
  specialize (Hxt (or_intror Ht1)). specialize (Hyt (or_introl Ht2)).
  apply Z.even_spec in Hxt as [m1 Hm1]. apply Z.even_spec in Hyt as [m2 Hm2].
  lia.
Qed.

Lemma tenths_spec (x : Q) :
  let k := tenths x in
  let n := Qnum x in
  let d := Zpos (Qden x) in
  - d <= 2 * (10 * n - k * d) <= d
  /\ (2 * (10 * n - k * d) = d \/ 2 * (10 * n - k * d) = - d -> Z.even k = true).
Proof.
  intros k n d. subst k. unfold tenths.
  pose proof (round_half_even_spec (x * 10)) as H. cbv zeta in H.
  set (k := round_half_even (x * 10)) in *.
  change (Qnum (x * 10)) with (Qnum x * 10) in H.
  change (Zpos (Qden (x * 10))) with (Zpos (Qden x * 1)) in H.
  rewrite Pos.mul_1_r in H. fold n d in H.
  replace (n * 10 - k * d) with (10 * n - k * d) in H by lia.
  exact H.
Qed.

Lemma tenths_mono (x y : Q) : (x <= y)%Q -> tenths x <= tenths y.
Proof.
  intros Hxy. unfold tenths. apply round_half_even_mono.
  apply Qmult_le_compat_r; [exact Hxy | discriminate].
Qed.

Lemma round1_mono (x y : Q) : (x <= y)%Q -> (round1 x <= round1 y)%Q.
Proof.
  intros Hxy. apply tenths_mono in Hxy.
  unfold round1, Qle. simpl. lia.
Qed.

(** The clamp is monotone. *)
Lemma clamp_mono (a b : Q) :
  (a <= b)%Q -> (py_max 0 (py_min 100 a) <= py_max 0 (py_min 100 b))%Q.
Proof.
  intros Hab.
  destruct (py_min_cases 100 a) as [[Ha ->] | [Ha ->]];
    destruct (py_min_cases 100 b) as [[Hb ->] | [Hb ->]].
  - destruct (py_max_cases 0 a) as [[Ha0 ->] | [Ha0 ->]];
      destruct (py_max_cases 0 b) as [[Hb0 ->] | [Hb0 ->]]; lra.
  - destruct (py_max_cases 0 a) as [[Ha0 ->] | [Ha0 ->]];
      destruct (py_max_cases 0 100) as [[Hb0 ->] | [Hb0 ->]]; lra.
  - lra.
  - lra.
Qed.



(** X2. The final score never decreases when the risk score increases. *)
Theorem final_score_mono (r1 r2 : Q) :
  (r1 <= r2)%Q -> (final_score r1 <= final_score r2)%Q.
Proof.
  intros H. unfold final_score. apply clamp_mono, round1_mono, H.
Qed.

Lemma final_score_mono_witness :
  (final_score (1 # 3) <= final_score (2 # 3))%Q.
Proof.
  apply final_score_mono. unfold Qle. simpl. lia.
Defined.

(** *** Binary64 arithmetic *)

Import PyFloat.

(** *** Nearest integer, in terms of the value *)

Lemma round_half_even_near (x : Q) :
  (x - (1 # 2) <= inject_Z (round_half_even x) <= x + (1 # 2))%Q.
Proof.
  destruct (round_half_even_spec x) as [[Hlo Hhi] _].
  set (r := round_half_even x) in *.
  destruct x as [n d]. cbn [Qnum Qden] in *.
  unfold Qle, Qminus, Qplus, Qopp, inject_Z. cbn [Qnum Qden].
  rewrite ?Pos2Z.inj_mul. split; nia.
Qed.

Lemma round_half_even_unique (x : Q) (k : Z) :
  (x - (1 # 2) <= inject_Z k <= x + (1 # 2))%Q ->
  ((inject_Z k == x - (1 # 2))%Q \/ (inject_Z k == x + (1 # 2))%Q ->
   Z.even k = true) ->
  round_half_even x = k.
Proof.
  intros [Hlo Hhi] Htie.
  destruct (round_half_even_spec x) as [[Rlo Rhi] Rtie].
  set (r := round_half_even x) in *.
  destruct x as [n d]. cbn [Qnum Qden] in *.
  unfold Qle, Qeq, Qminus, Qplus, Qopp, inject_Z in *. cbn [Qnum Qden] in *.
  rewrite !Pos2Z.inj_mul in *.
  assert (Hd : 0 < Zpos d) by lia.
  clearbody r. assert (Hk : - Zpos d <= 2 * (n - k * Zpos d) <= Zpos d) by lia.
  destruct (Z.lt_trichotomy r k) as [Hlt | [Heq | Hgt]]; [| exact Heq |]; exfalso.
  - assert (k = r + 1) by nia.
    assert (T1 : 2 * (n - r * Zpos d) = Zpos d) by nia.
    assert (T2 : 2 * (n - k * Zpos d) = - Zpos d) by nia.
    specialize (Rtie (or_introl T1)).
    assert (Z.even k = true) by (apply Htie; right; lia).
    apply Z.even_spec in Rtie as [m1 ?]. apply Z.even_spec in H0 as [m2 ?]. lia.
  - assert (r = k + 1) by nia.
    assert (T1 : 2 * (n - r * Zpos d) = - Zpos d) by nia.
    assert (T2 : 2 * (n - k * Zpos d) = Zpos d) by nia.
    specialize (Rtie (or_intror T1)).
    assert (Z.even k = true) by (apply Htie; left; lia).
    apply Z.even_spec in Rtie as [m1 ?]. apply Z.even_spec in H0 as [m2 ?]. lia.
Qed.

Lemma round_half_even_Qeq (x y : Q) :
  (x == y)%Q -> round_half_even x = round_half_even y.
Proof.
  intros H. apply Z.le_antisymm; apply round_half_even_mono; rewrite H; apply Qle_refl.
Qed.

Lemma round_half_even_Z (k : Z) : round_half_even (inject_Z k) = k.
Proof.
  unfold round_half_even, inject_Z. cbn [Qnum Qden].
  rewrite Z.div_1_r, Z.mod_1_r. reflexivity.
Qed.

Lemma round_half_even_opp (x : Q) :
  round_half_even (- x) = - round_half_even x.
Proof.
  apply round_half_even_unique.
  - pose proof (round_half_even_near x) as [H1 H2].
    rewrite inject_Z_opp. split; lra.
  - pose proof (round_half_even_near x) as [H1 H2].
    destruct (round_half_even_spec x) as [_ Rtie].
    rewrite inject_Z_opp, Z.even_opp. intros Ht. apply Rtie.
    set (r := round_half_even x) in *.
    destruct x as [n d]. cbn [Qnum Qden] in *.
    unfold Qeq, Qminus, Qplus, Qopp, inject_Z in Ht. cbn [Qnum Qden] in Ht.
    rewrite ?Pos2Z.inj_mul in Ht. clearbody r.
    destruct Ht as [Ht | Ht]; [right | left]; lia.
Qed.

(** *** Powers of two *)

Local Open Scope Q_scope.

Lemma pow2_pos (z : Z) : 0 < 2 ^ z.
Proof. apply Qpower_0_lt. reflexivity. Qed.

Lemma pow2_plus (a b : Z) : 2 ^ (a + b) == 2 ^ a * 2 ^ b.
Proof. apply Qpower_plus. discriminate. Qed.

Lemma pow2_Z (n : Z) : (0 <= n)%Z -> inject_Z (2 ^ n) == 2 ^ n.
Proof. intros Hn. apply (Zpower_Qpower 2 n Hn). Qed.

Lemma pow2_le (a b : Z) : (a <= b)%Z -> 2 ^ a <= 2 ^ b.
Proof. intros H. apply Qpower_le_compat_l; [exact H | discriminate]. Qed.

Lemma pow2_lt_inv (a b : Z) : 2 ^ a < 2 ^ b -> (a < b)%Z.
Proof. intros H. apply (Qpower_lt_compat_l_inv 2); [exact H | reflexivity]. Qed.

(** *** The binary exponent *)

Lemma ilog2_spec (x : Q) :
  0 < x -> 2 ^ ilog2 x <= x /\ x < 2 ^ (ilog2 x + 1).
Proof.
  intros Hx. unfold ilog2.
  set (ln := Z.log2 (Qnum x)). set (ld := Z.log2 (Zpos (Qden x))).
  assert (Hn : (0 < Qnum x)%Z).
  { unfold Qlt in Hx. simpl in Hx. lia. }
  destruct (Z.log2_spec _ Hn) as [Hn1 Hn2]. fold ln in Hn1, Hn2.
  destruct (Z.log2_spec (Zpos (Qden x)) ltac:(lia)) as [Hd1 Hd2].
  fold ld in Hd1, Hd2.
  assert (Hln : (0 <= ln)%Z) by apply Z.log2_nonneg.
  assert (Hld : (0 <= ld)%Z) by apply Z.log2_nonneg.
  set (N := inject_Z (Qnum x)). set (D := inject_Z (Zpos (Qden x))).
  assert (HD : 0 < D) by (unfold D, Qlt; simpl; lia).
  assert (HxD : x * D == N).
  { unfold N, D, Qeq, Qmult, inject_Z. simpl. lia. }
  assert (QN1 : 2 ^ ln <= N).
  { rewrite <- pow2_Z by exact Hln. unfold N. rewrite <- Zle_Qle. exact Hn1. }
  assert (QN2 : N < 2 ^ (ln + 1)).
  { rewrite <- pow2_Z by lia. unfold N. rewrite <- Zlt_Qlt. exact Hn2. }
  assert (QD1 : 2 ^ ld <= D).
  { rewrite <- pow2_Z by exact Hld. unfold D. rewrite <- Zle_Qle. exact Hd1. }
  assert (QD2 : D < 2 ^ (ld + 1)).
  { rewrite <- pow2_Z by lia. unfold D. rewrite <- Zlt_Qlt. exact Hd2. }
  assert (Hup : x < 2 ^ (ln - ld + 1)).
  { apply (Qmult_lt_r _ _ D HD). rewrite HxD.
    apply (Qlt_le_trans _ _ _ QN2).
    replace (ln + 1)%Z with ((ln - ld + 1) + ld)%Z by lia.
    rewrite pow2_plus. apply Qmult_le_l; [apply pow2_pos | exact QD1]. }
  assert (Hlow : 2 ^ (ln - ld - 1) < x).
  { apply (Qmult_lt_r _ _ D HD). rewrite HxD.
    apply (Qlt_le_trans _ (2 ^ (ln - ld - 1) * 2 ^ (ld + 1))).
    - apply Qmult_lt_l; [apply pow2_pos | exact QD2].
    - rewrite <- pow2_plus.
      replace (ln - ld - 1 + (ld + 1))%Z with ln by lia. exact QN1. }
  destruct (Qle_bool (2 ^ (ln - ld)) x) eqn:E.
  - apply Qle_bool_iff in E. split; [exact E | exact Hup].
  - split; [apply Qlt_le_weak, Hlow |].
    replace (ln - ld - 1 + 1)%Z with (ln - ld)%Z by lia.
    apply Qnot_le_lt. intros H. apply Qle_bool_iff in H. congruence.
Qed.

Lemma ilog2_unique (x : Q) (e : Z) :
  2 ^ e <= x -> x < 2 ^ (e + 1) -> ilog2 x = e.
Proof.
  intros H1 H2.
  assert (Hx : 0 < x) by (apply (Qlt_le_trans _ (2 ^ e)); [apply pow2_pos | exact H1]).
  destruct (ilog2_spec x Hx) as [S1 S2].
  assert (e < ilog2 x + 1)%Z by (apply pow2_lt_inv; lra).
  assert (ilog2 x < e + 1)%Z by (apply pow2_lt_inv; lra).
  lia.
Qed.

Lemma ilog2_mono (x y : Q) : 0 < x -> x <= y -> (ilog2 x <= ilog2 y)%Z.
Proof.
  intros Hx Hxy.
  destruct (ilog2_spec x Hx) as [S1 _].
  destruct (ilog2_spec y ltac:(lra)) as [_ T2].
  assert (ilog2 x < ilog2 y + 1)%Z by (apply pow2_lt_inv; lra).
  lia.
Qed.

Lemma ilog2_Qeq (x y : Q) : 0 < x -> x == y -> ilog2 x = ilog2 y.
Proof.
  intros Hx Hxy. destruct (ilog2_spec x Hx) as [S1 S2].
  symmetry. apply ilog2_unique; rewrite <- Hxy; assumption.
Qed.

(** *** Rounding to binary64 *)

Lemma Qabs_pos_of_nonzero (x : Q) : ~ x == 0 -> 0 < Qabs x.
Proof.
  intros Hx. destruct (Qlt_le_dec 0 x) as [H | H].
  - rewrite Qabs_pos by lra. exact H.
  - rewrite Qabs_neg by exact H.
    destruct (Qeq_dec x 0) as [E | E]; [contradiction |].
    assert (x < 0) by (apply Qle_lteq in H as [H | H]; [exact H | contradiction]).
    lra.
Qed.

Lemma quantum_Qeq (x y : Q) : ~ x == 0 -> x == y -> quantum x = quantum y.
Proof.
  intros Hx Hxy. unfold quantum. f_equal. f_equal.
  apply ilog2_Qeq; [apply Qabs_pos_of_nonzero, Hx | rewrite Hxy; reflexivity].
Qed.

Lemma quantum_opp (x : Q) : quantum (- x) = quantum x.
Proof.
  unfold quantum. destruct x as [n d]. unfold Qabs, Qopp. cbn [Qnum Qden].
  rewrite Z.abs_opp. reflexivity.
Qed.

Lemma quantum_pos (x : Q) :
  0 < x -> quantum x = Z.max (ilog2 x - 52) (-1074).
Proof.
  intros Hx. unfold quantum. f_equal. f_equal.
  apply ilog2_Qeq; [rewrite Qabs_pos by lra; exact Hx | apply Qabs_pos; lra].
Qed.

Lemma fl_zero (x : Q) : x == 0 -> fl x = 0.
Proof.
  intros Hx. unfold fl. apply Qeq_bool_iff in Hx. rewrite Hx. reflexivity.
Qed.

Lemma fl_nonzero (x : Q) :
  ~ x == 0 ->
  fl x = inject_Z (round_half_even (x * 2 ^ (- quantum x))) * 2 ^ quantum x.
Proof.
  intros Hx. unfold fl. destruct (Qeq_bool x 0) eqn:E; [| reflexivity].
  apply Qeq_bool_iff in E. contradiction.
Qed.

Lemma fl_Qeq (x y : Q) : x == y -> fl x == fl y.
Proof.
  intros Hxy. destruct (Qeq_dec x 0) as [Hx | Hx].
  - rewrite (fl_zero x Hx), (fl_zero y) by (rewrite <- Hxy; exact Hx).
    reflexivity.
  - rewrite (fl_nonzero x Hx), (fl_nonzero y) by (rewrite <- Hxy; exact Hx).
    rewrite <- (quantum_Qeq x y Hx Hxy).
    rewrite (round_half_even_Qeq (x * 2 ^ (- quantum x)) (y * 2 ^ (- quantum x)))
      by (apply Qmult_comp; [exact Hxy | reflexivity]).
    reflexivity.
Qed.

Lemma fl_opp (x : Q) : fl (- x) == - fl x.
Proof.
  destruct (Qeq_dec x 0) as [Hx | Hx].
  - rewrite (fl_zero x Hx), (fl_zero (- x)) by (rewrite Hx; reflexivity).
    reflexivity.
  - rewrite (fl_nonzero x Hx), (fl_nonzero (- x)) by (intros H; apply Hx; lra).
    rewrite quantum_opp.
    rewrite (round_half_even_Qeq (- x * 2 ^ (- quantum x))
               (- (x * 2 ^ (- quantum x)))) by ring.
    rewrite round_half_even_opp, inject_Z_opp. ring.
Qed.

Lemma fl_nonneg (x : Q) : 0 <= x -> 0 <= fl x.
Proof.
  intros Hx. destruct (Qeq_dec x 0) as [E | E].
  - rewrite (fl_zero x E). apply Qle_refl.
  - rewrite (fl_nonzero x E). apply Qmult_le_0_compat.
    + change 0 with (inject_Z 0). rewrite <- Zle_Qle.
      rewrite <- (round_half_even_Z 0). apply round_half_even_mono.
      change (inject_Z 0) with 0. apply Qmult_le_0_compat; [exact Hx |].
      apply Qlt_le_weak, pow2_pos.
    + apply Qlt_le_weak, pow2_pos.
Qed.

(** A power of two at or above the last place is on the grid. *)
Lemma pow2_on_grid (m q : Z) :
  (q <= m)%Z ->
  round_half_even (2 ^ m * 2 ^ (- q)) = (2 ^ (m - q))%Z
  /\ inject_Z (2 ^ (m - q)) * 2 ^ q == 2 ^ m.
Proof.
  intros Hqm. split.
  - rewrite <- (round_half_even_Z (2 ^ (m - q))).
    apply round_half_even_Qeq.
    rewrite pow2_Z by lia. rewrite <- pow2_plus.
    replace (m + - q)%Z with (m - q)%Z by lia. reflexivity.
  - rewrite pow2_Z by lia. rewrite <- pow2_plus.
    replace (m - q + q)%Z with m by lia. reflexivity.
Qed.

Lemma fl_le_pow2 (x : Q) (m : Z) :
  0 < x -> x <= 2 ^ m -> (quantum x <= m)%Z -> fl x <= 2 ^ m.
Proof.
  intros Hx Hxm Hq. rewrite (fl_nonzero x) by lra.
  destruct (pow2_on_grid m (quantum x) Hq) as [Hr Hg].
  rewrite <- Hg. apply Qmult_le_compat_r; [| apply Qlt_le_weak, pow2_pos].
  rewrite <- Zle_Qle, <- Hr. apply round_half_even_mono.
  apply Qmult_le_compat_r; [exact Hxm | apply Qlt_le_weak, pow2_pos].
Qed.

Lemma fl_ge_pow2 (x : Q) (m : Z) :
  0 < x -> 2 ^ m <= x -> (quantum x <= m)%Z -> 2 ^ m <= fl x.
Proof.
  intros Hx Hxm Hq. rewrite (fl_nonzero x) by lra.
  destruct (pow2_on_grid m (quantum x) Hq) as [Hr Hg].
  rewrite <- Hg. apply Qmult_le_compat_r; [| apply Qlt_le_weak, pow2_pos].
  rewrite <- Zle_Qle, <- Hr. apply round_half_even_mono.
  apply Qmult_le_compat_r; [exact Hxm | apply Qlt_le_weak, pow2_pos].
Qed.

Lemma fl_mono_pos (x y : Q) : 0 < x -> x <= y -> fl x <= fl y.
Proof.
  intros Hx Hxy. assert (Hy : 0 < y) by lra.
  pose proof (ilog2_mono x y Hx Hxy) as He.
  pose proof (quantum_pos x Hx) as Qx. pose proof (quantum_pos y Hy) as Qy.
  destruct (Z.eq_dec (quantum x) (quantum y)) as [Heq | Hne].
  - rewrite (fl_nonzero x), (fl_nonzero y) by lra. rewrite Heq.
    apply Qmult_le_compat_r; [| apply Qlt_le_weak, pow2_pos].
    rewrite <- Zle_Qle. apply round_half_even_mono.
    apply Qmult_le_compat_r; [exact Hxy | apply Qlt_le_weak, pow2_pos].
  - destruct (ilog2_spec x Hx) as [_ Sx]. destruct (ilog2_spec y Hy) as [Sy _].
    assert (Hlt : (ilog2 x < ilog2 y)%Z) by lia.
    apply (Qle_trans _ (2 ^ ilog2 y)).
    + apply fl_le_pow2; [exact Hx | | lia].
      apply (Qle_trans _ (2 ^ (ilog2 x + 1))); [lra | apply pow2_le; lia].
    + apply fl_ge_pow2; [exact Hy | exact Sy | lia].
Qed.

Lemma fl_mono (x y : Q) : x <= y -> fl x <= fl y.
Proof.
  intros Hxy.
  destruct (Qlt_le_dec 0 x) as [Hx | Hx].
  - apply fl_mono_pos; assumption.
  - destruct (Qlt_le_dec y 0) as [Hy | Hy].
    + assert (H : fl (- y) <= fl (- x)) by (apply fl_mono_pos; lra).
      rewrite !fl_opp in H. lra.
    + apply (Qle_trans _ 0); [| apply fl_nonneg, Hy].
      assert (H : 0 <= fl (- x)) by (apply fl_nonneg; lra).
      rewrite fl_opp in H. lra.
Qed.

(** A value on the grid of its own last place is a binary64 number. *)
Lemma fl_exact (x : Q) (j : Z) :
  ~ x == 0 -> x == inject_Z j * 2 ^ quantum x -> is_double x.
Proof.
  intros Hx Hj. unfold is_double. rewrite (fl_nonzero x Hx).
  rewrite (round_half_even_Qeq _ (inject_Z j)).
  - rewrite round_half_even_Z. symmetry. exact Hj.
  - rewrite Hj at 1. rewrite <- Qmult_assoc, <- pow2_plus.
    replace (quantum x + - quantum x)%Z with 0%Z by lia. simpl. ring.
Qed.

Lemma quantum_of_binade (x : Q) (e : Z) :
  2 ^ e <= x -> x < 2 ^ (e + 1) -> (-1074 <= e - 52)%Z ->
  quantum x = (e - 52)%Z.
Proof.
  intros H1 H2 He.
  assert (Hx : 0 < x) by (apply (Qlt_le_trans _ (2 ^ e)); [apply pow2_pos | exact H1]).
  rewrite (quantum_pos x Hx), (ilog2_unique x e H1 H2). lia.
Qed.

(** *** The two adjustments of the score in binary64 *)

Lemma fadd_15_reaches_50 (c : Q) : 35 <= c -> 50 <= fadd c 15.
Proof.
  intros Hc. unfold fadd.
  apply (Qle_trans _ (fl 50)); [| apply fl_mono; lra].
  vm_compute. discriminate.
Qed.

Lemma fsub_10_below (c : Q) :
  is_double c -> c < 1199 # 20 -> fsub c 10 < 999 # 20.
Proof.
  intros Hd Hc. unfold fsub.
  destruct (Qlt_le_dec c 42) as [Hlow | Hhigh].
  - apply (Qle_lt_trans _ (fl 32)); [apply fl_mono; lra |].
    vm_compute. reflexivity.
  - assert (Qc : quantum c = (-47)%Z).
    { apply (quantum_of_binade c 5); [| | lia].
      - change (2 ^ 5) with 32. lra.
      - change (2 ^ (5 + 1)) with 64. lra. }
    assert (Qy : quantum (c - 10) = (-47)%Z).
    { apply (quantum_of_binade (c - 10) 5); [| | lia].
      - change (2 ^ 5) with 32. lra.
      - change (2 ^ (5 + 1)) with 64. lra. }
    unfold is_double in Hd. rewrite (fl_nonzero c) in Hd by lra.
    rewrite Qc in Hd.
    remember (round_half_even (c * 2 ^ (- -47))) as k eqn:Hk. clear Hk.
    assert (E : inject_Z (10 * 2 ^ 47) * 2 ^ (-47) == 10)
      by (vm_compute; reflexivity).
    assert (Hy : is_double (c - 10)).
    { apply (fl_exact (c - 10) (k - 10 * 2 ^ 47)); [lra |].
      rewrite Qy. unfold Z.sub.
      rewrite inject_Z_plus, inject_Z_opp, Qmult_plus_distr_l.
      rewrite Hd. setoid_replace (- inject_Z (10 * 2 ^ 47) * 2 ^ (-47))
        with (- (inject_Z (10 * 2 ^ 47) * 2 ^ (-47))) using relation Qeq by ring.
      rewrite E. reflexivity. }
    unfold is_double in Hy. lra.
Qed.

Lemma fsub_10_le (c : Q) : is_double c -> fsub c 10 <= c.
Proof.
  intros Hd. unfold fsub, is_double in *.
  apply (Qle_trans _ (fl c)); [apply fl_mono; lra | lra].
Qed.

Lemma fadd_15_ge (c : Q) : is_double c -> c <= fadd c 15.
Proof.
  intros Hd. unfold fadd, is_double in *.
  apply (Qle_trans _ (fl c)); [lra | apply fl_mono; lra].
Qed.

(** *** A rounded value is a binary64 number *)

Lemma is_double_opp (x : Q) : is_double x -> is_double (- x).
Proof.
  unfold is_double. intros H. rewrite fl_opp. rewrite H. reflexivity.
Qed.

Lemma is_double_Qeq (x y : Q) : x == y -> is_double x -> is_double y.
Proof.
  unfold is_double. intros Hxy H. rewrite <- (fl_Qeq x y Hxy), H. exact Hxy.
Qed.

Lemma fl_is_double_pos (x : Q) : 0 < x -> is_double (fl x).
Proof.
  intros Hx.
  pose proof (quantum_pos x Hx) as Qx.
  destruct (ilog2_spec x Hx) as [S1 S2].
  set (e := ilog2 x) in *. set (q := quantum x) in *.
  pose proof (fl_nonzero x ltac:(lra)) as Hfl. fold q in Hfl.
  set (k := round_half_even (x * 2 ^ (- q))) in *.
  pose proof (fl_nonneg x ltac:(lra)) as Hnn.
  destruct (Qeq_dec (fl x) 0) as [Hz | Hnz].
  - unfold is_double. rewrite (fl_zero (fl x) Hz). symmetry. exact Hz.
  - assert (Hy : 0 < fl x).
    { apply Qle_lteq in Hnn as [H | H]; [exact H |]. exfalso. apply Hnz.
      symmetry. exact H. }
    pose proof (quantum_pos (fl x) Hy) as Qy.
    destruct (ilog2_spec (fl x) Hy) as [T1 T2].
    assert (Hup : fl x <= 2 ^ Z.max (e + 1) q).
    { apply fl_le_pow2; [exact Hx | | fold q; lia].
      apply (Qle_trans _ (2 ^ (e + 1))); [lra | apply pow2_le; lia]. }
    destruct (Z.eq_dec q (e - 52)%Z) as [Hn | Hs].
    + assert (Hlo : 2 ^ e <= fl x).
      { apply fl_ge_pow2; [exact Hx | exact S1 | fold q; lia]. }
      replace (Z.max (e + 1) q) with (e + 1)%Z in Hup by lia.
      destruct (Qlt_le_dec (fl x) (2 ^ (e + 1))) as [Hlt | Hge].
      * apply (fl_exact (fl x) k); [exact Hnz |].
        rewrite Qy, (ilog2_unique (fl x) e Hlo Hlt).
        replace (Z.max (e - 52) (-1074)) with q by lia.
        rewrite Hfl. reflexivity.
      * assert (Heq : fl x == 2 ^ (e + 1)) by lra.
        apply (fl_exact (fl x) (2 ^ 52)); [exact Hnz |].
        assert (Hi : ilog2 (fl x) = (e + 1)%Z).
        { apply ilog2_unique; [lra |].
          rewrite Heq. apply Qpower_lt_compat_l; [lia | reflexivity]. }
        rewrite Qy, Hi.
        replace (Z.max (e + 1 - 52) (-1074)) with (e + 1 - 52)%Z by lia.
        rewrite pow2_Z by lia. rewrite <- pow2_plus.
        replace (52 + (e + 1 - 52))%Z with (e + 1)%Z by lia. exact Heq.
    + assert (Hq : q = (-1074)%Z) by lia.
      apply (fl_exact (fl x) k); [exact Hnz |].
      assert (Hi : (ilog2 (fl x) <= Z.max (e + 1) q)%Z).
      { assert (ilog2 (fl x) < Z.max (e + 1) q + 1)%Z; [| lia].
        apply pow2_lt_inv.
        apply (Qle_lt_trans _ (fl x)); [exact T1 |].
        apply (Qle_lt_trans _ _ _ Hup).
        apply Qpower_lt_compat_l; [lia | reflexivity]. }
      rewrite Qy. replace (Z.max (ilog2 (fl x) - 52) (-1074)) with q by lia.
      rewrite Hfl. reflexivity.
Qed.

Lemma fl_is_double (x : Q) : is_double (fl x).
Proof.
  destruct (Qlt_le_dec 0 x) as [Hp | Hn].
  - apply fl_is_double_pos, Hp.
  - destruct (Qeq_dec x 0) as [Hz | Hnz].
    + unfold is_double. rewrite (fl_zero x Hz). reflexivity.
    + assert (Hneg : 0 < - x).
      { apply Qle_lteq in Hn as [H | H]; [lra | contradiction]. }
      apply (is_double_Qeq (- fl (- x))).
      * rewrite fl_opp. ring.
      * apply is_double_opp, fl_is_double_pos, Hneg.
Qed.

(** The rounding error is at most half a unit in the last place. *)
Lemma fl_error (x : Q) :
  x - 2 ^ quantum x * (1 # 2) <= fl x <= x + 2 ^ quantum x * (1 # 2).
Proof.
  destruct (Qeq_dec x 0) as [Hz | Hnz].
  - rewrite (fl_zero x Hz). pose proof (pow2_pos (quantum x)). lra.
  - rewrite (fl_nonzero x Hnz).
    pose proof (round_half_even_near (x * 2 ^ (- quantum x))) as [H1 H2].
    pose proof (pow2_pos (quantum x)) as Hp.
    assert (Hx : x * 2 ^ (- quantum x) * 2 ^ quantum x == x).
    { rewrite <- Qmult_assoc, <- pow2_plus.
      replace (- quantum x + quantum x)%Z with 0%Z by lia.
      change (2 ^ 0) with 1. ring. }
    set (k := inject_Z (round_half_even (x * 2 ^ (- quantum x)))) in *.
    set (z := x * 2 ^ (- quantum x)) in *.
    set (u := 2 ^ quantum x) in *.
    assert (L1 : (z - (1 # 2)) * u <= k * u)
      by (apply Qmult_le_compat_r; lra).
    assert (L2 : k * u <= (z + (1 # 2)) * u)
      by (apply Qmult_le_compat_r; lra).
    split; nra.
Qed.

(** Below 128 in magnitude the last place is far below one. *)
Lemma fl_near_small (x : Q) :
  -128 < x -> x < 128 -> x - 1 <= fl x <= x + 1.
Proof.
  intros Hlo Hhi.
  destruct (Qeq_dec x 0) as [Hz | Hnz].
  - rewrite (fl_zero x Hz). lra.
  - pose proof (fl_error x) as [E1 E2].
    assert (Ha : 0 < Qabs x) by (apply Qabs_pos_of_nonzero, Hnz).
    assert (Hb : Qabs x < 2 ^ 7).
    { change (2 ^ 7) with 128. apply Qabs_case; intros; lra. }
    destruct (ilog2_spec (Qabs x) Ha) as [S1 _].
    assert (Hi : (ilog2 (Qabs x) < 7)%Z) by (apply pow2_lt_inv; lra).
    assert (Hq : (quantum x <= 0)%Z) by (unfold quantum; lia).
    pose proof (pow2_le (quantum x) 0 Hq) as Hu.
    change (2 ^ 0) with 1 in Hu.
    pose proof (pow2_pos (quantum x)). lra.
Qed.

Lemma final_score_after_fsub (c : Q) :
  final_score (fsub c 10) <= final_score c.
Proof.
  unfold fsub.
  destruct (Qlt_le_dec (c - 10) 101) as [Hhi | Hhi].
  - destruct (Qlt_le_dec (-1) (c - 10)) as [Hlo | Hlo].
    + destruct (fl_near_small (c - 10)) as [_ Hn]; [lra | lra |].
      unfold final_score. apply clamp_mono, round1_mono. lra.
    + apply (Qle_trans _ (final_score (-1))).
      * unfold final_score. apply clamp_mono, round1_mono.
        apply (Qle_trans _ (fl (-1))); [apply fl_mono, Hlo |].
        vm_compute. discriminate.
      * replace (final_score (-1)) with 0 by reflexivity.
        apply final_score_bounds.
  - apply (Qle_trans _ (final_score 101)).
    + replace (final_score 101) with 100 by reflexivity.
      apply final_score_bounds.
    + unfold final_score. apply clamp_mono, round1_mono. lra.
Qed.

Lemma final_score_before_fadd (c : Q) :
  final_score c <= final_score (fadd c 15).
Proof.
  unfold fadd.
  destruct (Qlt_le_dec (c + 15) 101) as [Hhi | Hhi].
  - destruct (Qlt_le_dec (-1) (c + 15)) as [Hlo | Hlo].
    + destruct (fl_near_small (c + 15)) as [Hn _]; [lra | lra |].
      unfold final_score. apply clamp_mono, round1_mono. lra.
    + apply (Qle_trans _ (final_score (-1))).
      * unfold final_score. apply clamp_mono, round1_mono. lra.
      * replace (final_score (-1)) with 0 by reflexivity.
        apply final_score_bounds.
  - apply (Qle_trans _ (final_score 101)).
    + replace (final_score 101) with 100 by reflexivity.
      apply final_score_bounds.
    + unfold final_score. apply clamp_mono, round1_mono.
      apply (Qle_trans _ (fl 101)); [| apply fl_mono, Hhi].
      vm_compute. discriminate.
Qed.

(** Every float the program computes is a binary64 number: the confidence
    of line 113 and the adjusted scores of lines 131 and 134. *)
Lemma float_results_are_doubles (x y : Q) :
  is_double (to_float x) /\ is_double (fmul x y)
  /\ is_double (fadd x y) /\ is_double (fsub x y).
Proof. repeat split; apply fl_is_double. Qed.

Local Close Scope Q_scope.

Lemma tenths_of_tenth (k : Z) : tenths (k # 10) = k.
Proof.
  unfold tenths, round_half_even.
  change (Qnum ((k # 10) * 10)) with (k * 10).
  change (Zpos (Qden ((k # 10) * 10))) with 10.
  rewrite Z.div_mul, Z.mod_mul by lia. reflexivity.
Qed.

(** X3. A risk score of at least 50 gives the status "danger" and a risk
    score below 49.95 gives "safe"; so a domain younger than 30 days is
    flagged from a classifier confidence of 35, and a domain older than
    1000 days is not flagged when the confidence is a float below 59.95. *)
Theorem status_thresholds :
  (forall r : Q, (50 <= r)%Q -> status_of (final_score r) = "danger")
  /\ (forall r : Q, (r < 999 # 20)%Q -> status_of (final_score r) = "safe")
  /\ (forall (c : Q) (a : Z), a < 30 -> (35 <= c)%Q ->
        status_of (final_score (fst (risk c (Some a)))) = "danger")
  /\ (forall (c : Q) (a : Z), 1000 < a -> is_double c -> (c < 1199 # 20)%Q ->
        status_of (final_score (fst (risk c (Some a)))) = "safe").
Proof.
  assert (Hhigh : forall r : Q, (50 <= r)%Q ->
                    status_of (final_score r) = "danger").
  { intros r Hr. apply status_of_danger.
    apply (Qle_trans _ (final_score 50)); [| apply clamp_mono, round1_mono, Hr].
    replace (final_score 50) with (500 # 10)%Q by reflexivity.
    unfold Qle. simpl. lia. }
  assert (Hlow : forall r : Q, (r < 999 # 20)%Q ->
                   status_of (final_score r) = "safe").
  { intros r Hr. apply status_of_safe.
    destruct (tenths_spec r) as [[Hlo _] _].
    assert (Hk : tenths r < 500).
    { unfold Qlt in Hr. simpl in Hr.
      assert (0 < Zpos (Qden r)) by lia. nia. }
    assert (Hq : (round1 r < 50)%Q) by (unfold round1, Qlt; simpl; lia).
    unfold final_score.
    destruct (py_min_cases 100 (round1 r)) as [[Hm ->] | [Hm ->]].
    - destruct (py_max_cases 0 (round1 r)) as [[Hp ->] | [Hp ->]]; lra.
    - lra. }
  split; [exact Hhigh |]. split; [exact Hlow |]. split.
  - intros c a Ha Hc. unfold risk, adjust_for_age.
    destruct (Z.ltb_spec a 30); [| lia].
    apply Hhigh. cbn [fst]. apply fadd_15_reaches_50, Hc.
  - intros c a Ha Hd Hc. unfold risk, adjust_for_age.
    destruct (Z.ltb_spec a 30); [lia |].
    destruct (Z.ltb_spec 1000 a); [| lia].
    apply Hlow. cbn [fst]. apply fsub_10_below; assumption.
Qed.

(** The last threshold is one of floats: a rational just below 59.95 that is
    no float loses 10 to the float next above 49.95, which rounds to 50.0. *)
Example threshold_is_about_floats :
  ~ is_double ((1199 # 20) - (1 # 100000000000000000000))
  /\ status_of
       (final_score
          (fst (risk ((1199 # 20) - (1 # 100000000000000000000))
                  (Some 2000))))
     = "danger".
Proof.
  split; [| vm_compute; reflexivity].
  unfold is_double. vm_compute. discriminate.
Qed.

Lemma status_thresholds_witness :
  status_of (final_score (fst (risk 40 (Some 3)))) = "danger"
  /\ status_of (final_score (fst (risk 55 (Some 4000)))) = "safe".
Proof.
  destruct status_thresholds as (_ & _ & Hnew & Hold). split.
  - apply Hnew; [lia | unfold Qle; simpl; lia].
  - apply Hold; [lia | vm_compute; reflexivity | unfold Qlt; simpl; lia].
Defined.

(** X4. For one classifier confidence, a domain younger than 30 days never
    scores lower than a domain of unknown or middle age, which never scores
    lower than a domain older than 1000 days. *)
Theorem age_orders_final_score (c : Q) (young old : Z) (mid : option Z) :
  young < 30 -> 1000 < old ->
  (mid = None \/ exists a, mid = Some a /\ 30 <= a <= 1000) ->
  (final_score (fst (risk c (Some old))) <= final_score (fst (risk c mid))
   <= final_score (fst (risk c (Some young))))%Q.
Proof.
  intros Hy Ho Hmid.
  assert (Hm : fst (risk c mid) = c).
  { destruct Hmid as [-> | (a & -> & Ha)]; [reflexivity |].
    unfold risk, adjust_for_age.
    destruct (Z.ltb_spec a 30); [lia |].
    destruct (Z.ltb_spec 1000 a); [lia | reflexivity]. }
  rewrite Hm. unfold risk, adjust_for_age.
  destruct (Z.ltb_spec young 30); [| lia].
  destruct (Z.ltb_spec old 30); [lia |].
  destruct (Z.ltb_spec 1000 old); [| lia].
  cbn [fst]. split.
  - apply final_score_after_fsub.
  - apply final_score_before_fadd.
Qed.

Lemma age_orders_final_score_witness :
  (final_score (fst (risk 47 (Some 2000%Z)))
   <= final_score (fst (risk 47 None))
   <= final_score (fst (risk 47 (Some 1%Z))))%Q.
Proof.
  apply age_orders_final_score; [lia | lia | left; reflexivity].
Defined.

(** X5. A risk score between 0 and 100 that already has one decimal is its
    own final score. *)
Theorem final_score_of_tenth (k : Z) :
  0 <= k <= 1000 -> (final_score (k # 10) == k # 10)%Q.
Proof.
  intros Hk. unfold final_score, round1. rewrite tenths_of_tenth.
  assert (H0 : (0 <= k # 10)%Q) by (unfold Qle; simpl; lia).
  assert (H1 : (k # 10 <= 100)%Q) by (unfold Qle; simpl; lia).
  destruct (py_min_cases 100 (k # 10)) as [[Hm ->] | [Hm ->]].
  - destruct (py_max_cases 0 (k # 10)) as [[Hp ->] | [Hp ->]]; lra.
  - destruct (py_max_cases 0 100) as [[Hp ->] | [Hp ->]]; lra.
Qed.

Lemma final_score_of_tenth_witness : (final_score (873 # 10) == 873 # 10)%Q.
Proof. apply final_score_of_tenth. lia. Defined.


End RoundingFacts.

(** ** More on the history log *)

Section HistoryFacts.

Variable escape : string -> string.
Variable strftime : Z -> string.

Local Abbreviation upsert := (upsert escape strftime).
Local Abbreviation save_to_logs := (save_to_logs escape strftime).
Local Abbreviation fresh_record := (fresh_record escape strftime).
Local Abbreviation analyze := (analyze escape strftime).
Local Abbreviation served := (served escape strftime).

Implicit Types (logs : list ScanRecord) (fs : FileState) (r : ScanRecord).
Implicit Types (u st : string) (sc : Q) (now : Z).

Lemma filter_comm {A} (P1 P2 : A -> Prop)
    `{!∀ x, Decision (P1 x), !∀ x, Decision (P2 x)} (l : list A) :
  filter P1 (filter P2 l) = filter P2 (filter P1 l).
Proof.
  rewrite !list_filter_filter. apply list_filter_iff. tauto.
Qed.

Lemma upsert_filter_other logs u st sc now (key : string) :
  key ≠ escape u ->
  filter (λ r, url r = key) (upsert logs u st sc now)
  = filter (λ r, url r = key) logs.
Proof.
  intros Hkey. induction logs as [| r logs IH].
  - rewrite upsert_nil. apply filter_singleton_False; [exact [] |].
    simpl. congruence.
  - destruct (decide (url r = escape u)) as [Heq | Hne].
    + rewrite upsert_cons_match by assumption.
      rewrite !filter_cons_False by (simpl; congruence). reflexivity.
    + rewrite upsert_cons_other by assumption.
      rewrite !filter_cons, IH. reflexivity.
Qed.

(** X6. A save leaves the records of every other URL as they were, whether
    the saved URL was in the log or not. *)
Theorem save_keeps_other_urls fs u st sc now (key : string) :
  key ≠ escape u ->
  filter (λ r, url r = key) (load_or_empty (save_to_logs fs u st sc now))
  = filter (λ r, url r = key) (load_or_empty fs).
Proof.
  intros Hkey. simpl. apply upsert_filter_other, Hkey.
Qed.

(** X7. A save never removes or reorders a URL: the URLs of the log before
    the save are a prefix of the URLs after it, and the log grows by at most
    one record. *)
Theorem save_only_grows fs u st sc now :
  let before := load_or_empty fs in
  let after := load_or_empty (save_to_logs fs u st sc now) in
  (url <$> before) `prefix_of` (url <$> after)
  /\ (length before <= length after <= S (length before))%nat
  /\ escape u ∈ url <$> after.
Proof.
  simpl. destruct (decide (escape u ∈ url <$> load_or_empty fs)) as [Hin | Hout].
  - rewrite upsert_urls_present, upsert_length_present by assumption.
    split; [exists []; symmetry; apply app_nil_r |]. split; [lia | exact Hin].
  - rewrite upsert_urls_absent by assumption.
    rewrite fmap_app, length_app. simpl.
    split; [eexists; reflexivity |]. split; [lia |].
    apply elem_of_app. right. apply list_elem_of_singleton. reflexivity.
Qed.

(** X8. The first scan of a URL puts its record on top of the bucket of
    its status and leaves both buckets otherwise as they were. *)
Theorem first_scan_on_top fs u st sc now :
  escape u ∉ url <$> load_or_empty fs ->
  let data := reverse (load_or_empty fs) in
  let good := filter (λ i, status i = "safe") data in
  let bad := filter (λ i, status i ≠ "safe") data in
  get_logs (save_to_logs fs u st sc now)
  = Returned (if decide (st = "safe")
              then (fresh_record u st sc now :: good, bad)
              else (good, fresh_record u st sc now :: bad)).
Proof.
  intros Hnew. simpl. rewrite upsert_urls_absent by assumption.
  rewrite reverse_snoc.
  destruct (decide (st = "safe")) as [Hs | Hs].
  - rewrite filter_cons_True by exact Hs.
    rewrite filter_cons_False by (simpl; tauto). reflexivity.
  - rewrite filter_cons_False by exact Hs.
    rewrite filter_cons_True by exact Hs. reflexivity.
Qed.

(** X9. In a log without duplicate URLs, after a save the record of the
    saved URL is in the bucket of the saved status and no record of that
    URL is in the other bucket: a scan whose verdict changed moves the URL
    from one bucket to the other. *)
Theorem rescan_moves_bucket fs u st sc now :
  unique_urls (load_or_empty fs) ->
  exists good bad,
    get_logs (save_to_logs fs u st sc now) = Returned (good, bad)
    /\ filter (λ r, url r = escape u) good
       = (if decide (st = "safe") then [fresh_record u st sc now] else [])
    /\ filter (λ r, url r = escape u) bad
       = (if decide (st = "safe") then [] else [fresh_record u st sc now]).
Proof.
  intros Huniq. eexists _, _. split; [reflexivity |].
  rewrite !(filter_comm (λ r, url r = escape u)), filter_reverse.
  rewrite (upsert_filter_key escape strftime _ u st sc now Huniq).
  rewrite reverse_singleton.
  destruct (decide (st = "safe")) as [Hs | Hs]; split.
  - apply filter_singleton_True; [exact [] | exact Hs].
  - apply filter_singleton_False; [exact [] | simpl; tauto].
  - apply filter_singleton_False; [exact [] | exact Hs].
  - apply filter_singleton_True; [exact [] | exact Hs].
Qed.

(** X10. The two buckets of [get_logs] together hold every stored record
    once: they are a rearrangement of the log and their lengths add up to
    its length. *)
Theorem get_logs_loses_nothing logs :
  exists good bad,
    get_logs (Stored logs) = Returned (good, bad)
    /\ good ++ bad ≡ₚ logs
    /\ (length good + length bad)%nat = length logs.
Proof.
  eexists _, _. split; [reflexivity |].
  assert (Hperm :
    filter (λ i, status i = "safe") (reverse logs)
    ++ filter (λ i, status i ≠ "safe") (reverse logs) ≡ₚ logs).
  { rewrite (filter_app_complement (λ i, status i = "safe") (reverse logs)).
    apply reverse_Permutation. }
  split; [exact Hperm |].
  rewrite <- length_app. apply Permutation_length, Hperm.
Qed.

Lemma upsert_swap logs u1 st1 sc1 t1 u2 st2 sc2 t2 :
  escape u1 ≠ escape u2 ->
  upsert (upsert logs u1 st1 sc1 t1) u2 st2 sc2 t2
  ≡ₚ upsert (upsert logs u2 st2 sc2 t2) u1 st1 sc1 t1.
Proof.
  intros Hne. induction logs as [| r logs IH].
  - rewrite !upsert_nil.
    rewrite !upsert_cons_other, !upsert_nil by (simpl; congruence).
    apply Permutation_swap.
  - destruct (decide (url r = escape u1)) as [H1 | H1].
    + rewrite (upsert_cons_match _ _ r logs u1) by assumption.
      rewrite (upsert_cons_other _ _ r logs u2) by congruence.
      rewrite upsert_cons_other by (simpl; congruence).
      rewrite upsert_cons_match by assumption. reflexivity.
    + rewrite (upsert_cons_other _ _ r logs u1) by assumption.
      destruct (decide (url r = escape u2)) as [H2 | H2].
      * rewrite !(upsert_cons_match _ _ r) by assumption.
        rewrite upsert_cons_other by (simpl; congruence). reflexivity.
      * rewrite !(upsert_cons_other _ _ r) by assumption.
        apply Permutation_skip, IH.
Qed.

Lemma upsert_swap_present logs u1 st1 sc1 t1 u2 st2 sc2 t2 :
  escape u1 ≠ escape u2 ->
  escape u1 ∈ url <$> logs \/ escape u2 ∈ url <$> logs ->
  upsert (upsert logs u1 st1 sc1 t1) u2 st2 sc2 t2
  = upsert (upsert logs u2 st2 sc2 t2) u1 st1 sc1 t1.
Proof.
  intros Hne. induction logs as [| r logs IH]; intros Hin.
  - destruct Hin as [Hin | Hin]; inversion Hin.
  - destruct (decide (url r = escape u1)) as [H1 | H1].
    + rewrite (upsert_cons_match _ _ r logs u1) by assumption.
      rewrite (upsert_cons_other _ _ r logs u2) by congruence.
      rewrite upsert_cons_other by (simpl; congruence).
      rewrite upsert_cons_match by assumption. reflexivity.
    + rewrite (upsert_cons_other _ _ r logs u1) by assumption.
      destruct (decide (url r = escape u2)) as [H2 | H2].
      * rewrite !(upsert_cons_match _ _ r) by assumption.
        rewrite upsert_cons_other by (simpl; congruence). reflexivity.
      * rewrite !(upsert_cons_other _ _ r) by assumption.
        f_equal. apply IH.
        rewrite !fmap_cons, !elem_of_cons in Hin.
        destruct Hin as [[? | ?] | [? | ?]]; try congruence; auto.
Qed.

(** X11. Saves of two different URLs can be swapped: the log holds the same
    records either way, and in the same order as soon as one of the two
    URLs was already in the log. *)
Theorem saves_of_two_urls_swap fs u1 st1 sc1 t1 u2 st2 sc2 t2 :
  escape u1 ≠ escape u2 ->
  let one_two :=
    load_or_empty (save_to_logs (save_to_logs fs u1 st1 sc1 t1) u2 st2 sc2 t2) in
  let two_one :=
    load_or_empty (save_to_logs (save_to_logs fs u2 st2 sc2 t2) u1 st1 sc1 t1) in
  one_two ≡ₚ two_one
  /\ (escape u1 ∈ url <$> load_or_empty fs
      \/ escape u2 ∈ url <$> load_or_empty fs -> one_two = two_one).
Proof.
  intros Hne. simpl. split.
  - apply upsert_swap, Hne.
  - apply upsert_swap_present, Hne.
Qed.

(** *** The scan handler and the log *)

Lemma upsert_elem logs u st sc now :
  fresh_record u st sc now ∈ upsert logs u st sc now.
Proof.
  induction logs as [| r logs IH].
  - rewrite upsert_nil. apply list_elem_of_here.
  - destruct (decide (url r = escape u)) as [Heq | Hne].
    + rewrite upsert_cons_match by assumption.
      unfold fresh_record. rewrite <- Heq. apply list_elem_of_here.
    + rewrite upsert_cons_other by assumption.
      apply list_elem_of_further, IH.
Qed.

Lemma upsert_Forall (P : ScanRecord -> Prop) logs u st sc now :
  Forall P logs ->
  (forall key, P (mkScanRecord key st sc (strftime now))) ->
  Forall P (upsert logs u st sc now).
Proof.
  intros Hall Hnew. unfold upsert.
  destruct (list_find _ logs) as [[i item] |].
  - apply Forall_insert; [exact Hall | apply Hnew].
  - apply Forall_app. split; [exact Hall |].
    apply Forall_singleton, Hnew.
Qed.

(** The two ways a request ends. *)
Lemma analyze_cases (w : World) fs (data : Request) :
  (exists message, analyze w fs data = (ErrorResponse message, fs))
  \/ (exists p : Q,
        get_url data ≠ ""
        /\ predict_bad w (get_url data) = Returned p
        /\ let age := get_domain_age w (get_url data) in
           let final := Scoring.final_score (fst (Scoring.risk (PyFloat.fmul (PyFloat.to_float p) 100) age)) in
           analyze w fs data
           = (ScanResponse (Scoring.status_of final) final
                (snd (Scoring.risk (PyFloat.fmul (PyFloat.to_float p) 100) age)) (Scoring.age_display age),
              save_to_logs fs (get_url data) (Scoring.status_of final) final
                (now_save w))).
Proof.
  unfold analyze. destruct (get_url data) as [| c rest] eqn:Hu.
  - left. eexists. reflexivity.
  - cbn [PyStr.truthy negb].
    destruct (predict_bad w (String c rest)) as [p | message] eqn:Hp.
    + right. exists p. split; [discriminate |]. split; [reflexivity |].
      cbv zeta.
      destruct (Scoring.risk (PyFloat.fmul (PyFloat.to_float p) 100) (get_domain_age w (String c rest))).
      reflexivity.
    + left. eexists. reflexivity.
Qed.

(** X12. A request that is answered with an error leaves the history file
    as it was; a request that is answered with a verdict stores exactly
    that verdict: the file is the save of the response's status and score,
    and the log holds the record of the escaped URL with them. *)
Theorem response_matches_log (w : World) fs (data : Request) :
  match fst (analyze w fs data) with
  | ErrorResponse _ => snd (analyze w fs data) = fs
  | ScanResponse st sc _ _ =>
      snd (analyze w fs data)
      = save_to_logs fs (get_url data) st sc (now_save w)
      /\ fresh_record (get_url data) st sc (now_save w)
         ∈ load_or_empty (snd (analyze w fs data))
  end.
Proof.
  destruct (analyze_cases w fs data) as [[message ->] | (p & _ & _ & H)].
  - reflexivity.
  - cbv zeta in H. rewrite H. cbn [fst snd].
    split; [reflexivity | apply upsert_elem].
Qed.

Lemma scored_record_well_scored (risk_score : Q) (key t : string) :
  well_scored
    (mkScanRecord key (Scoring.status_of (Scoring.final_score risk_score))
       (Scoring.final_score risk_score) t).
Proof.
  unfold well_scored. cbn [status score]. split; [| split].
  - unfold Scoring.status_of.
    destruct (Qle_bool 50 _); [right | left]; reflexivity.
  - apply ScoringFacts.final_score_bounds.
  - apply ScoringFacts.status_of_danger.
Qed.

Lemma served_step_invariant (w : World) fs (data : Request) :
  unique_urls (load_or_empty fs) /\ Forall well_scored (load_or_empty fs) ->
  unique_urls (load_or_empty (snd (analyze w fs data)))
  /\ Forall well_scored (load_or_empty (snd (analyze w fs data))).
Proof.
  intros [Huniq Hall].
  destruct (analyze_cases w fs data) as [[message ->] | (p & _ & _ & H)].
  - split; assumption.
  - cbv zeta in H. rewrite H. cbn [snd]. simpl load_or_empty. split.
    + apply upsert_unique, Huniq.
    + apply upsert_Forall; [exact Hall |].
      intros key. apply scored_record_well_scored.
Qed.

Lemma served_not_corrupt fs : served fs -> fs ≠ Corrupt.
Proof.
  induction 1 as [| w fs data _ IH]; [discriminate |].
  destruct (analyze_cases w fs data) as [[message ->] | (p & _ & _ & H)].
  - exact IH.
  - cbv zeta in H. rewrite H. discriminate.
Qed.

(** X13. A history that only the scan handler has written, starting from a
    missing file, has one record per URL, each with status "safe" or
    "danger" and a score between 0 and 100 on the matching side of 50; on
    such a history [get_logs] returns, all of its first bucket is "safe"
    and all of its second bucket is "danger". *)
Theorem served_history_invariant fs :
  served fs ->
  unique_urls (load_or_empty fs)
  /\ Forall well_scored (load_or_empty fs)
  /\ exists good bad,
       get_logs fs = Returned (good, bad)
       /\ Forall (λ r, status r = "safe") good
       /\ Forall (λ r, status r = "danger") bad.
Proof.
  intros Hs.
  assert (Hinv : unique_urls (load_or_empty fs)
                 /\ Forall well_scored (load_or_empty fs)).
  { induction Hs as [| w fs data _ IH].
    - split; [apply NoDup_nil_2 | apply Forall_nil_2].
    - apply served_step_invariant, IH. }
  destruct Hinv as [Huniq Hall]. split; [exact Huniq |].
  split; [exact Hall |].
  pose proof (served_not_corrupt fs Hs) as Hnc.
  destruct fs as [| | logs]; [| contradiction |].
  - exists [], []. split; [reflexivity |]. split; apply Forall_nil_2.
  - eexists _, _. split; [reflexivity |]. simpl in Hall.
    rewrite Forall_forall in Hall.
    split; apply Forall_forall; intros r Hr;
      apply list_elem_of_filter in Hr as [Hst Hr];
      rewrite elem_of_reverse in Hr.
    + exact Hst.
    + destruct (Hall r Hr) as ([Hsafe | Hdanger] & _);
        [contradiction | exact Hdanger].
Qed.

Lemma analyze_keeps_unique (w : World) fs (data : Request) :
  unique_urls (load_or_empty fs) ->
  unique_urls (load_or_empty (snd (analyze w fs data))).
Proof.
  intros Huniq.
  destruct (analyze_cases w fs data) as [[message ->] | (p & _ & _ & H)].
  - exact Huniq.
  - cbv zeta in H. rewrite H. apply upsert_unique, Huniq.
Qed.

(** X14. When a URL is scanned again, whatever the earlier request did, the
    log (without duplicate URLs before) holds one record for the URL, and
    it carries the status and score of the latest response. *)
Theorem rescan_keeps_latest_verdict (w1 w2 : World) fs (data : Request) (p2 : Q) :
  unique_urls (load_or_empty fs) ->
  get_url data ≠ "" ->
  predict_bad w2 (get_url data) = Returned p2 ->
  let second := analyze w2 (snd (analyze w1 fs data)) data in
  exists st sc reasons age,
    fst second = ScanResponse st sc reasons age
    /\ filter (λ r, url r = escape (get_url data)) (load_or_empty (snd second))
       = [fresh_record (get_url data) st sc (now_save w2)].
Proof.
  intros Huniq Hu Hp second. subst second.
  pose proof (analyze_keeps_unique w1 fs data Huniq) as Huniq1.
  rewrite (analyze_scan escape strftime w2 _ data p2 Hu Hp).
  eexists _, _, _, _. split; [reflexivity |].
  cbn [snd]. simpl load_or_empty. apply upsert_filter_key, Huniq1.
Qed.

Lemma lookup_unknown (w : World) u :
  whois_available w = false \/ whois w (domain_name u) = WhoisFailed ->
  get_domain_age w u = None.
Proof.
  unfold get_domain_age. intros [H | H].
  - rewrite H. reflexivity.
  - rewrite H. destruct (whois_available w); reflexivity.
Qed.

(** X15. When the WHOIS module is missing or the registry query fails, the
    scan still answers: the score is the clamped, rounded classifier
    confidence, the only reason is the classifier's, and the age is shown
    as "Unknown". *)
Theorem scan_without_lookup (w : World) fs (data : Request) (p : Q) :
  get_url data ≠ "" ->
  predict_bad w (get_url data) = Returned p ->
  whois_available w = false
  \/ whois w (domain_name (get_url data)) = WhoisFailed ->
  let final := Scoring.final_score (PyFloat.fmul (PyFloat.to_float p) 100) in
  fst (analyze w fs data)
  = ScanResponse (Scoring.status_of final) final
      [Scoring.ai_reason (PyFloat.fmul (PyFloat.to_float p) 100)] "Unknown".
Proof.
  intros Hu Hp Hlookup final. subst final.
  rewrite (analyze_scan escape strftime w fs data p Hu Hp).
  rewrite (lookup_unknown w _ Hlookup). reflexivity.
Qed.

End HistoryFacts.

(** ** More on the domain lookup *)

Module LookupFacts.

Import PyStr.

Lemma first_piece_no_slash (s : string) :
  has_char "/" (first_item (split "/" s)) = false.
Proof.
  unfold split. induction s as [| c rest IH]; [reflexivity |].
  cbn [split_from String.prefix].
  destruct (Ascii.ascii_dec "/" c) as [-> | Hc].
  - destruct rest; reflexivity.
  - destruct (split_from "/" 0 rest) as [| piece more] eqn:E.
    + exfalso. exact (DomainFacts.split_from_nonempty _ _ _ E).
    + cbn [first_item hd has_char] in *. rewrite IH, orb_false_r.
      apply Ascii.eqb_neq, Hc.
Qed.

(** X16. Whatever the URL, the domain given to the registry contains no
    slash. *)
Theorem domain_name_has_no_slash (u : string) :
  has_char "/" (domain_name u) = false.
Proof. unfold domain_name. apply first_piece_no_slash. Qed.

(** X17. When the registry answers with a creation date, or with a list of
    them, of which the first counts, the age is the number of whole days
    from that date to the lookup, rounded down; it is negative exactly when
    the date lies after the lookup. *)
Theorem domain_age_whole_days (w : World) (u : string) (t : Z) :
  whois_available w = true ->
  (whois w (domain_name u) = WhoisEntry (CreationAt t)
   \/ exists later, whois w (domain_name u) = WhoisEntry (CreationList (t :: later))) ->
  exists d : Z,
    get_domain_age w u = Some d
    /\ (seconds_per_day * d <= now_lookup w - t < seconds_per_day * (d + 1))%Z
    /\ (d < 0 <-> now_lookup w < t)%Z.
Proof.
  intros Hav Hreply. exists ((now_lookup w - t) / seconds_per_day)%Z.
  assert (Hage : get_domain_age w u
                 = Some ((now_lookup w - t) / seconds_per_day)%Z).
  { unfold get_domain_age. rewrite Hav.
    destruct Hreply as [-> | [later ->]]; reflexivity. }
  split; [exact Hage |].
  unfold seconds_per_day.
  pose proof (Z.div_mod (now_lookup w - t) 86400 ltac:(lia)) as Hdm.
  pose proof (Z.mod_pos_bound (now_lookup w - t) 86400 ltac:(lia)) as Hr.
  split; [lia |]. split; intros H; lia.
Qed.

Lemma domain_age_whole_days_witness :
  exists d : Z,
    get_domain_age paypal_only_registry redirect_url = Some d
    /\ (seconds_per_day * d
        <= now_lookup paypal_only_registry - 0 < seconds_per_day * (d + 1))%Z
    /\ (d < 0 <-> now_lookup paypal_only_registry < 0)%Z.
Proof.
  apply domain_age_whole_days; [reflexivity | left; reflexivity].
Defined.

End LookupFacts.

(** ** The further properties on concrete inputs *)

Lemma save_keeps_other_urls_witness :
  filter (λ r, url r = "http://a.com")
    (load_or_empty
       (save_to_logs markup_escape clock_string (Stored two_scans)
          "http://b.com" "safe" 20 5))
  = filter (λ r, url r = "http://a.com") (load_or_empty (Stored two_scans)).
Proof.
  apply save_keeps_other_urls. simpl. discriminate.
Defined.

Lemma first_scan_on_top_witness :
  get_logs
    (save_to_logs markup_escape clock_string (Stored two_scans)
       "http://c.com" "danger" 66 9)
  = Returned
      ([mkScanRecord "http://a.com" "safe" 10 "2024-01-01 10:00:00"],
       [mkScanRecord "http://c.com" "danger" 66 "9";
        mkScanRecord "http://b.com" "danger" 90 "2024-01-02 11:30:00"]).
Proof.
  apply (first_scan_on_top markup_escape clock_string (Stored two_scans)
           "http://c.com" "danger" 66%Q 9%Z).
  simpl. rewrite !not_elem_of_cons. repeat split; try discriminate.
  apply not_elem_of_nil.
Defined.

Lemma rescan_moves_bucket_witness :
  exists good bad,
    get_logs
      (save_to_logs markup_escape clock_string (Stored two_scans)
         "http://a.com" "danger" 71 9)
    = Returned (good, bad)
    /\ filter (λ r, url r = "http://a.com") good = []
    /\ filter (λ r, url r = "http://a.com") bad
       = [mkScanRecord "http://a.com" "danger" 71 "9"].
Proof.
  apply (rescan_moves_bucket markup_escape clock_string (Stored two_scans)
           "http://a.com" "danger" 71%Q 9%Z).
  exact two_scans_unique.
Defined.

Lemma saves_of_two_urls_swap_witness :
  load_or_empty
    (save_to_logs markup_escape clock_string
       (save_to_logs markup_escape clock_string Absent "http://a.com" "safe" 1 1)
       "http://b.com" "danger" 99 2)
  ≡ₚ load_or_empty
       (save_to_logs markup_escape clock_string
          (save_to_logs markup_escape clock_string Absent
             "http://b.com" "danger" 99 2)
          "http://a.com" "safe" 1 1).
Proof.
  apply (saves_of_two_urls_swap markup_escape clock_string Absent
           "http://a.com" "safe" 1%Q 1%Z "http://b.com" "danger" 99%Q 2%Z).
  simpl. discriminate.
Defined.

Lemma served_history_invariant_witness :
  let fs :=
    snd (analyze markup_escape clock_string registered_today Absent
           (mkRequest (Some "http://new.example/"))) in
  unique_urls (load_or_empty fs)
  /\ Forall well_scored (load_or_empty fs)
  /\ exists good bad,
       get_logs fs = Returned (good, bad)
       /\ Forall (λ r, status r = "safe") good
       /\ Forall (λ r, status r = "danger") bad.
Proof.
  intros fs. apply (served_history_invariant markup_escape clock_string).
  apply served_scan, served_start.
Defined.

Lemma rescan_keeps_latest_verdict_witness :
  let second :=
    analyze markup_escape clock_string no_whois
      (snd (analyze markup_escape clock_string registered_today
              (Stored two_scans) (mkRequest (Some "http://a.com"))))
      (mkRequest (Some "http://a.com")) in
  exists st sc reasons age,
    fst second = ScanResponse st sc reasons age
    /\ filter (λ r, url r = "http://a.com") (load_or_empty (snd second))
       = [mkScanRecord "http://a.com" st sc "77"].
Proof.
  apply (rescan_keeps_latest_verdict markup_escape clock_string
           registered_today no_whois (Stored two_scans)
           (mkRequest (Some "http://a.com")) (1 # 4)%Q).
  - exact two_scans_unique.
  - discriminate.
  - reflexivity.
Defined.

Lemma scan_without_lookup_witness :
  fst (analyze markup_escape clock_string no_whois Absent
         (mkRequest (Some "http://a.com")))
  = ScanResponse "safe" (250 # 10)
      ["AI Analysis indicates a 75.0% safety confidence"] "Unknown".
Proof.
  apply (scan_without_lookup markup_escape clock_string no_whois Absent
           (mkRequest (Some "http://a.com")) (1 # 4)%Q).
  - discriminate.
  - reflexivity.
  - left. reflexivity.
Defined.

(** Scans whose score depends on the rounding of the float product of
    line 113: 0.4995 * 100 is a float above 49.95 and 0.0015 * 100 is a
    float below 0.15. *)
Example scan_float_products :
  fst (analyze markup_escape clock_string (no_whois_with (4995 # 10000)) Absent
         (mkRequest (Some "http://a.com")))
  = ScanResponse "danger" (500 # 10)
      ["AI Analysis indicates a 50.0% safety confidence"] "Unknown"
  /\ fst (analyze markup_escape clock_string (no_whois_with (15 # 10000)) Absent
            (mkRequest (Some "http://a.com")))
     = ScanResponse "safe" (1 # 10)
         ["AI Analysis indicates a 99.8% safety confidence"] "Unknown"
  /\ fst (analyze markup_escape clock_string (no_whois_with (45 # 10000)) Absent
            (mkRequest (Some "http://a.com")))
     = ScanResponse "safe" (4 # 10)
         ["AI Analysis indicates a 99.5% safety confidence"] "Unknown".
Proof. repeat split; vm_compute; reflexivity. Qed.
